(** * Little Star English: the audio pipeline, the Gemini service wrappers and
      the chat history of the application shell.

    The development embeds
    - [services/gemini.ts]: [getAudioContext], [getAiClient], [generateLesson],
      [playTextToSpeech], [sendChatMessage];
    - [types.ts]: [ChatMessage], [LessonContent];
    - [App.tsx]: [handleSendMessage];
    - [services/audioUtils.ts] ([decode], [decodeAudioData]), whose text is not
      part of the sources at hand and is therefore written after its
      specification.

    Everything the browser or the network provides (the Web Audio API, the
    generative-AI client, [JSON.parse], the console) is an operation of the
    class [Host]; the program is a function of it. *)

From Stdlib Require Import ZArith NArith QArith Qabs Floats Lia ZifyNat.
From Stdlib.Strings Require Import Byte Ascii String.
From stdpp Require Import base option list relations.

Set Default Proof Using "Type".
Set Warnings "-register-all".
Local Open Scope nat_scope.

(** * JavaScript values shared by all modules *)

Module JS.

(** A string is its sequence of UTF-16 code units. *)
Definition jsstring : Type := list N.

(** ASCII literals of the source text. *)
Definition lit (s : string) : jsstring :=
  List.map N_of_ascii (list_ascii_of_string s).

Arguments lit : simpl never.

(** [Boolean(s)] for a string: only the empty string is falsy. *)
Definition truthy_string (s : jsstring) : bool :=
  match s with [] => false | _ :: _ => true end.

(** WhiteSpace and LineTerminator code points of ECMAScript, the ones
    [String.prototype.trim] removes. *)
Definition is_whitespace (c : N) : bool :=
  (((9 <=? c) && (c <=? 13)) || (c =? 32) || (c =? 160) || (c =? 5760)
   || ((8192 <=? c) && (c <=? 8202)) || (c =? 8232) || (c =? 8233)
   || (c =? 8239) || (c =? 8287) || (c =? 12288) || (c =? 65279))%N.

Fixpoint trimStart (s : jsstring) : jsstring :=
  match s with
  | c :: r => if is_whitespace c then trimStart r else s
  | [] => []
  end.

Definition trim (s : jsstring) : jsstring :=
  rev (trimStart (rev (trimStart s))).

(** What a [throw] carries: an [Error] built by the program, or a value the
    host raised (a [TypeError], a [DOMException], a network failure, ...). *)
Inductive exn : Type :=
| Error (message : jsstring)
| TypeError
| SyntaxError
| HostError (code : N).

(** The three ways a call, or the [await] of a promise, can end. *)
Inductive outcome (A : Type) : Type :=
| Normal (a : A)        (* returns; the promise is fulfilled *)
| Abrupt (e : exn)      (* throws; the promise is rejected *)
| Pending.              (* the awaited promise never settles *)
Arguments Normal {A} a.
Arguments Abrupt {A} e.
Arguments Pending {A}.

(** Computations over a world [W]: state passing with abrupt completion. *)
Definition M (W A : Type) : Type := W -> outcome A * W.

Definition ret {W A} (a : A) : M W A := fun w => (Normal a, w).
Definition throw {W A} (e : exn) : M W A := fun w => (Abrupt e, w).
Definition bind {W A B} (m : M W A) (k : A -> M W B) : M W B :=
  fun w =>
    match m w with
    | (Normal a, w') => k a w'
    | (Abrupt e, w') => (Abrupt e, w')
    | (Pending, w') => (Pending, w')
    end.

#[global] Instance M_ret {W} : MRet (M W) := fun A a => ret a.
#[global] Instance M_bind {W} : MBind (M W) := fun A B k m => bind m k.

(** [try { body } catch (error) { handler }] *)
Definition try_catch {W A} (body : M W A) (handler : exn -> M W A) : M W A :=
  fun w =>
    match body w with
    | (Abrupt e, w') => handler e w'
    | r => r
    end.

(** [try { body } catch (e) { handler } finally { final }], for a [final]
    block that completes normally. *)
Definition try_catch_finally {W A} (body : M W A) (handler : exn -> M W A)
    (final : W -> W) : M W A :=
  fun w =>
    match try_catch body handler w with
    | (Pending, w') => (Pending, w')
    | (r, w') => (r, final w')
    end.

(** JSON values, as [JSON.parse] builds them. A number is a binary64. *)
Inductive json : Type :=
| JNull
| JBool (b : bool)
| JNumber (x : float)
| JString (s : jsstring)
| JArray (items : list json)
| JObject (members : list (jsstring * json)).

(** A value read from a parsed document: [undefined] is [None]. *)
Definition jsval : Type := option json.

(** [Boolean(v)]: falsy are [undefined], [null], [false], [0], [-0], [NaN]
    and the empty string; every array and object is truthy. *)
Definition truthy (v : jsval) : bool :=
  match v with
  | None => false
  | Some JNull => false
  | Some (JBool b) => b
  | Some (JNumber x) => negb (PrimFloat.is_zero x || PrimFloat.is_nan x)
  | Some (JString s) => truthy_string s
  | Some (JArray _) => true
  | Some (JObject _) => true
  end.

Definition jsstring_eqb (a b : jsstring) : bool :=
  bool_decide (a = b).

(** The own property [key] of an object literal read by [JSON.parse]: a
    later member with the same name replaces an earlier one. *)
Fixpoint own_property (key : jsstring) (members : list (jsstring * json))
    : jsval :=
  match members with
  | [] => None
  | (k, v) :: r =>
      match own_property key r with
      | Some v' => Some v'
      | None => if jsstring_eqb k key then Some v else None
      end
  end.

(** [v.key] for a key that neither [Object.prototype], [Array.prototype]
    nor the wrapper prototypes define: reading from [null] throws a
    [TypeError], primitives and arrays give [undefined]. *)
Definition get_property (v : json) (key : jsstring) : exn + jsval :=
  match v with
  | JNull => inl TypeError
  | JObject members => inr (own_property key members)
  | _ => inr None
  end.

(** [Array.isArray(v)] *)
Definition isArray (v : jsval) : bool :=
  match v with Some (JArray _) => true | _ => false end.

End JS.

(** * audioUtils: base64 decoder and PCM frame interpreter

    services/audioUtils.ts is imported by services/gemini.ts but its text is
    not among the sources; every definition of this module follows sections
    3, 4.1, 4.2 and 8 of the specification. *)

Module AudioUtils.
Import JS.

(** Modelled from the spec: the two errors of section 7 that
    services/audioUtils.ts raises. *)
Inductive error : Type := DecodeError | FormatError.

Inductive result (A : Type) : Type :=
| Ok (a : A)
| Err (e : error).
Arguments Ok {A} a.
Arguments Err {A} e.

(** ** Base64 *)

(** Modelled from the spec: the value of a character of the standard
    base64 alphabet (A-Z, a-z, 0-9, [+], [/]), which [decode] of
    services/audioUtils.ts accepts. *)
Definition b64_index (c : N) : option N :=
  (if (65 <=? c) && (c <=? 90) then Some (c - 65)
   else if (97 <=? c) && (c <=? 122) then Some (c - 71)
   else if (48 <=? c) && (c <=? 57) then Some (c + 4)
   else if c =? 43 then Some 62
   else if c =? 47 then Some 63
   else None)%N.

(** Modelled from the spec: the padding character [=] of base64, which
    [decode] of services/audioUtils.ts accepts at the end of its input. *)
Definition pad : N := 61%N.

(** Modelled from the spec: padding is optional; when the input fills whole
    groups of four characters, one or two trailing [=] are padding. *)
Definition strip_padding (s : jsstring) : jsstring :=
if (length s mod 4 =? 0) then
  match rev s with
  | c1 :: r1 =>
      if (c1 =? pad)%N then
        match r1 with
        | c2 :: r2 => if (c2 =? pad)%N then rev r2 else rev r1
        | [] => rev r1
        end
      else s
  | [] => s
  end
else s.

(** Modelled from the spec: the number of padding characters of the input
    of [decode] (services/audioUtils.ts), by which the length of its output
    is adjusted. *)
Definition padding (s : jsstring) : nat :=
  length s - length (strip_padding s).

(** The byte with value [n mod 256]. *)
Definition byte_of_N (n : N) : byte :=
  match Byte.of_N (n mod 256) with
  | Some b => b
  | None => x00
  end.

(** Modelled from the spec: the bytes [decode] of services/audioUtils.ts
    returns. Four characters carry three bytes; a last group of three
    characters carries two bytes and one of two characters carries one. *)
Fixpoint decode_groups (idx : list N) : list byte :=
  match idx with
  | c0 :: c1 :: c2 :: c3 :: rest =>
      let n := (((c0 * 64 + c1) * 64 + c2) * 64 + c3)%N in
      byte_of_N (n / 65536) :: byte_of_N (n / 256) :: byte_of_N n
        :: decode_groups rest
  | [c0; c1; c2] =>
      let n := ((c0 * 64 + c1) * 64 + c2)%N in
      [byte_of_N (n / 1024); byte_of_N (n / 4)]
  | [c0; c1] =>
      let n := (c0 * 64 + c1)%N in
      [byte_of_N (n / 16)]
  | _ => []
  end.

(** Modelled from the spec: [decode] of services/audioUtils.ts, section 4.1
    of the specification. Valid input is standard-alphabet base64 with
    optional padding; anything else fails with [DecodeError]. *)
Definition decode (input : jsstring) : result (list byte) :=
  let data := strip_padding input in
  if (length data mod 4 =? 1) then Err DecodeError
  else
    match mapM b64_index data with
    | Some idx => Ok (decode_groups idx)
    | None => Err DecodeError
    end.

(** ** PCM *)

(** Modelled from the spec: the [AudioFrame] of section 3, which
    [decodeAudioData] of services/audioUtils.ts returns. *)
Record AudioFrame : Type := {
  sampleRate : Z;
  channelCount : nat;
  samples : list (list float)
}.

(** Modelled from the spec: the decoding rule of [decodeAudioData]
    (services/audioUtils.ts), a byte pair read as a signed little-endian
    16-bit integer. *)
Definition int16_le (lo hi : byte) : Z :=
  let u := (Z.of_N (Byte.to_N lo) + 256 * Z.of_N (Byte.to_N hi))%Z in
  if (u <? 32768)%Z then u else (u - 65536)%Z.

(** Modelled from the spec: the consecutive byte pairs [decodeAudioData]
    (services/audioUtils.ts) reads; a trailing single byte belongs to no
    pair. *)
Fixpoint int16_pairs (bytes : list byte) : list Z :=
  match bytes with
  | lo :: hi :: rest => int16_le lo hi :: int16_pairs rest
  | _ => []
  end.

(** The binary64 value of an integer below 2^63 in magnitude. *)
Definition float_of_Z (z : Z) : float :=
  if (z <? 0)%Z then PrimFloat.opp (PrimFloat.of_uint63 (Uint63.of_Z (- z)))
  else PrimFloat.of_uint63 (Uint63.of_Z z).

(** Modelled from the spec: the clamp to [-1.0, 1.0] of [decodeAudioData]
    (services/audioUtils.ts). *)
Definition clamp (x : float) : float :=
  if PrimFloat.ltb x (-1)%float then (-1)%float
  else if PrimFloat.ltb 1%float x then 1%float
  else x.

(** Modelled from the spec: the normalization of [decodeAudioData]
    (services/audioUtils.ts), divide by 32768.0 and clamp to [-1.0, 1.0]. *)
Definition normalize (z : Z) : float :=
  clamp (PrimFloat.div (float_of_Z z) 32768%float).

(** What to do with bytes that do not fill whole frames: the specification
    leaves the choice open, so the interpreter takes it as a parameter. *)
Inductive policy : Type := Reject | Truncate.

(** Modelled from the spec: the number of whole frames [decodeAudioData]
    (services/audioUtils.ts) finds in [bytes], of [2 * channels] bytes
    each. *)
Definition frameCount (bytes : list byte) (channels : nat) : nat :=
  length bytes / (2 * channels).

(** Modelled from the spec: the interleaving of [decodeAudioData]
    (services/audioUtils.ts), sample [i] of channel [c] is the 16-bit sample
    number [i * channels + c], at byte offset [(i * channels + c) * 2]. *)
Definition channel_samples (all : list Z) (channels frames c : nat)
    : list float :=
  (fun i => normalize (nth (i * channels + c) all 0%Z)) <$> seq 0 frames.

(** Modelled from the spec: the [AudioFrame] that [decodeAudioData]
    (services/audioUtils.ts) returns, with [samples[c][i]] for every [i] in
    [0, frameCount) and [c] in [0, channelCount). *)
Definition interpret (bytes : list byte) (rate : Z) (channels : nat)
    : AudioFrame :=
  let frames := frameCount bytes channels in
  let all := int16_pairs bytes in
  {| sampleRate := rate;
     channelCount := channels;
     samples := channel_samples all channels frames <$> seq 0 channels |}.

(** Modelled from the spec: [decodeAudioData] of services/audioUtils.ts,
    section 4.2 of the specification. Bytes that do not fill whole frames
    are refused with [FormatError] under [Reject]; under [Truncate] the
    trailing partial frame is dropped. *)
Definition decodeAudioData (p : policy) (bytes : list byte) (rate : Z)
    (channels : nat) : result AudioFrame :=
  match p, (length bytes mod (2 * channels) =? 0) with
  | Reject, false => Err FormatError
  | _, _ => Ok (interpret bytes rate channels)
  end.

(** The exact value of a finite binary64. *)
Definition exact (f : float) : option Q :=
  match Prim2SF f with
  | SpecFloat.S754_zero _ => Some 0%Q
  | SpecFloat.S754_finite sg m e =>
      let n := if sg then Z.neg m else Z.pos m in
      Some (if (0 <=? e)%Z then inject_Z (n * 2 ^ e)
            else Qmake n (Z.to_pos (2 ^ (- e))))
  | _ => None
  end.

(** [lo], [lo + 1], ..., [lo + n - 1] *)
Fixpoint zrange (lo : Z) (n : nat) : list Z :=
  match n with
  | O => []
  | S k => lo :: zrange (lo + 1) k
  end.

(** The normalized sample is exactly [z / 32768]. *)
Definition normalize_is_exact (z : Z) : bool :=
  match exact (normalize z) with
  | Some q => Qeq_bool q (Qmake z 32768)
  | None => false
  end.

Definition is_int16 (z : Z) : Prop := (-32768 <= z < 32768)%Z.

(** ** The encoder used to build test payloads

    Section 8 of the specification tests the pipeline on 16-bit samples
    encoded as little-endian PCM bytes and then as base64. *)

Definition b64_char (i : N) : N :=
  (if i <? 26 then i + 65
   else if i <? 52 then i + 71
   else if i <? 62 then i - 4
   else if i =? 62 then 43
   else 47)%N.

Fixpoint b64_digits (bytes : list byte) : list N :=
  match bytes with
  | b0 :: b1 :: b2 :: rest =>
      let n := ((Byte.to_N b0 * 256 + Byte.to_N b1) * 256 + Byte.to_N b2)%N in
      (n / 262144) :: (n / 4096 mod 64) :: (n / 64 mod 64) :: (n mod 64)
        :: b64_digits rest
  | [b0; b1] =>
      let n := ((Byte.to_N b0 * 256 + Byte.to_N b1) * 4)%N in
      [n / 4096; n / 64 mod 64; n mod 64]
  | [b0] =>
      let n := (Byte.to_N b0 * 16)%N in
      [n / 64; n mod 64]
  | [] => []
  end%N.

(** Standard base64 with padding. *)
Definition encode (bytes : list byte) : jsstring :=
  List.map b64_char (b64_digits bytes)
    ++ repeat pad ((3 - length bytes mod 3) mod 3).

(** Little-endian two's complement bytes of 16-bit samples. *)
Definition pcm_bytes (xs : list Z) : list byte :=
  flat_map (fun x => [byte_of_N (Z.to_N (x mod 256));
                      byte_of_N (Z.to_N ((x / 256) mod 256))]) xs.

(** Modelled from the spec: the data flow of section 2 through
    services/audioUtils.ts, the decoder and then the interpreter. *)
Definition pipeline (p : policy) (input : jsstring) (rate : Z)
    (channels : nat) : result AudioFrame :=
  match decode input with
  | Ok bytes => decodeAudioData p bytes rate channels
  | Err e => Err e
  end.

End AudioUtils.


(** * types.ts *)

Module Types.
Import JS.

Inductive Role : Type := user | model.

Record ChatMessage : Type := {
  role : Role;
  text : jsstring;
  isAudio : option bool
}.

Inductive ViewState : Type := HOME | LESSON | CHAT.

(** The object [generateLesson] returns. The interface declares [title],
    [introduction] and [story] as strings and the other two as arrays of
    items; the annotations are erased at run time and the fields hold
    whatever [JSON.parse] produced, so they are JSON values here. *)
Record LessonContent : Type := {
  title : json;
  introduction : json;
  vocabulary : list json;
  story : json;
  quiz : list json
}.

Definition is_nonempty_string (v : json) : Prop :=
  exists s, v = JString s /\ s <> [].

End Types.

(** * The host: Web Audio, the generative-AI client, the console *)

Module Web.
Import JS.

Inductive AudioContextState : Type := suspended | running | closed.

(** The identity of an [AudioContext] object. *)
Definition ctxref : Type := nat.

(** Handles of a [GoogleGenAI] client and of a chat session. *)
Definition client : Type := nat.
Definition chat : Type := nat.

Inductive GenerateContentConfig : Type :=
| LessonSchema                      (* application/json with the lesson schema *)
| Speech (voiceName : jsstring).    (* responseModalities: [AUDIO] *)

Record GenerateContentParameters : Type := {
  model : jsstring;
  contents : jsstring;
  config : GenerateContentConfig
}.

Record Blob : Type := { data : option jsstring }.
Record Part : Type := { inlineData : option Blob }.
Record Content : Type := { parts : option (list Part) }.
Record Candidate : Type := { content : option Content }.

Record GenerateContentResponse : Type := {
  text : option jsstring;
  candidates : option (list Candidate)
}.

Record HistoryItem : Type := {
  history_role : jsstring;
  history_parts : list jsstring
}.

(** An argument of [console.error]. *)
Inductive logarg : Type :=
| LString (s : jsstring)
| LExn (e : exn).

(** What the program asks of the host. [GetState] carries the value read
    and [PlayAudioBuffer] the state the context was in when it was called;
    [NewAudioContext] carries the object the constructor returned. *)
Inductive call : Type :=
| NewAudioContext (sampleRate : Z) (made : option ctxref)
| GetState (r : ctxref) (st : AudioContextState)
| Resume (r : ctxref)
| NewGoogleGenAI (apiKey : option jsstring)
| GenerateContent (params : GenerateContentParameters)
| ChatsCreate (chat_model : jsstring) (history : list HistoryItem)
    (systemInstruction : jsstring)
| SendMessage (message : jsstring)
| Decode (base64 : jsstring)
| DecodeAudioData (bytes : list byte) (r : ctxref) (rate : Z) (channels : nat)
| PlayAudioBuffer (frame : AudioUtils.AudioFrame) (r : ctxref)
    (st : AudioContextState)
| ConsoleError (args : list logarg).

Inductive completion : Type :=
| returned
| threw (e : exn)
| hung.

Record event : Type := Ev { ev_call : call; ev_end : completion }.

Definition completion_of {A} (o : outcome A) : completion :=
  match o with
  | Normal _ => returned
  | Abrupt e => threw e
  | Pending => hung
  end.

(** The operations of the environment over its own state [H]. The three
    functions of services/audioUtils.ts are taken as given here, with any
    behaviour. *)
Class Host (H : Type) : Type := {
  env_API_KEY : option jsstring;
  host_new_AudioContext : Z -> H -> outcome ctxref * H;
  host_state : ctxref -> H -> AudioContextState;
  host_resume : ctxref -> H -> H;
  host_new_GoogleGenAI : option jsstring -> H -> outcome client * H;
  host_generateContent :
    client -> GenerateContentParameters -> H
    -> outcome GenerateContentResponse * H;
  host_chats_create :
    client -> jsstring -> list HistoryItem -> jsstring -> H
    -> outcome chat * H;
  host_sendMessage : chat -> jsstring -> H -> outcome GenerateContentResponse * H;
  host_JSON_parse : jsstring -> option json;
  audioUtils_decode : jsstring -> H -> outcome (list byte) * H;
  audioUtils_decodeAudioData :
    list byte -> ctxref -> Z -> nat -> H
    -> outcome AudioUtils.AudioFrame * H;
  audioUtils_playAudioBuffer :
    AudioUtils.AudioFrame -> ctxref -> H -> outcome unit * H
}.

End Web.


(** * services/gemini.ts *)

Module Gemini.
Import JS Web.

(** The module variable, the host calls made so far (oldest first) and the
    state of the host. *)
Record World (H : Type) : Type := {
  audioContext : option ctxref;
  calls : list event;
  host : H
}.
Arguments audioContext {H} w.
Arguments calls {H} w.
Arguments host {H} w.

Section Service.
Context {H : Type} `{!Host H}.

Definition record_call (c : call) (k : completion) (h : H) (w : World H)
    : World H :=
  {| audioContext := audioContext w;
     calls := calls w ++ [Ev c k];
     host := h |}.

(** A call of a host operation, written to the trace with how it ended. *)
Definition host_call {A} (c : call) (op : H -> outcome A * H)
    : M (World H) A :=
  fun w =>
    let '(o, h) := op (host w) in
    (o, record_call c (completion_of o) h w).

Definition console_error (args : list logarg) : M (World H) unit :=
  host_call (ConsoleError args) (fun h => (Normal tt, h)).

Definition new_AudioContext (rate : Z) : M (World H) ctxref :=
  fun w =>
    let '(o, h) := host_new_AudioContext rate (host w) in
    let made := match o with Normal r => Some r | _ => None end in
    (o, record_call (NewAudioContext rate made) (completion_of o) h w).

Definition set_audioContext (r : ctxref) : M (World H) unit :=
  fun w =>
    (Normal tt,
     {| audioContext := Some r; calls := calls w; host := host w |}).

Definition read_state (r : ctxref) : M (World H) AudioContextState :=
  fun w =>
    let st := host_state r (host w) in
    (Normal st, record_call (GetState r st) returned (host w) w).

(** [audioContext.resume()]: the promise is not awaited. *)
Definition resume_context (r : ctxref) : M (World H) unit :=
  host_call (Resume r) (fun h => (Normal tt, host_resume r h)).

Definition getAudioContext : M (World H) ctxref :=
  r ← (fun w =>
         match audioContext w with
         | None => (r ← new_AudioContext 24000;
                    set_audioContext r;; mret r) w
         | Some r => (Normal r, w)
         end);
  st ← read_state r;
  match st with
  | suspended => resume_context r
  | _ => mret tt
  end;;
  mret r.

Definition truthy_key (k : option jsstring) : bool :=
  match k with
  | Some s => truthy_string s
  | None => false
  end.

Definition getAiClient : M (World H) client :=
  (if truthy_key env_API_KEY then mret tt
   else console_error [LString (lit "API_KEY is missing")]);;
  host_call (NewGoogleGenAI env_API_KEY)
    (host_new_GoogleGenAI env_API_KEY).

Definition newline : jsstring := [10%N].
Definition quote : jsstring := [34%N].

Definition lesson_prompt (topic : jsstring) : jsstring :=
  lit "Create a fun and engaging English lesson for a primary school student about "
  ++ quote ++ topic ++ quote ++ lit "." ++ newline
  ++ lit "  The response must be in valid JSON format." ++ newline
  ++ lit "  Structure the content to include:" ++ newline
  ++ lit "  1. A Title." ++ newline
  ++ lit "  2. A short, friendly Introduction in Chinese explaining the topic."
  ++ newline
  ++ lit "  3. A list of 3-5 key Vocabulary words (English word, Chinese translation, and a simple English example sentence)."
  ++ newline
  ++ lit "  4. A short Story (3-5 sentences) using the vocabulary in English."
  ++ newline
  ++ lit "  5. A mini Quiz with 2 multiple choice questions (question in Chinese/English mix, 3 options, and the correct answer string)."
  ++ newline ++ lit "  ".

Definition lesson_params (topic : jsstring) : GenerateContentParameters :=
  {| model := lit "gemini-2.5-flash";
     contents := lesson_prompt topic;
     config := LessonSchema |}.

(** [v || d] for a string default [d]. *)
Definition or_default (v : jsval) (d : jsstring) : json :=
  match v with
  | Some j => if truthy v then j else JString d
  | None => JString d
  end.

(** [Array.isArray(v) ? v : []] *)
Definition array_or_empty (v : jsval) : list json :=
  match v with
  | Some (JArray items) => items
  | _ => []
  end.

(** The object literal of the [return], its properties evaluated in order. *)
Definition lesson_of_parsed (parsed : json) : exn + Types.LessonContent :=
  match get_property parsed (lit "title") with
  | inl e => inl e
  | inr t =>
  match get_property parsed (lit "introduction") with
  | inl e => inl e
  | inr i =>
  match get_property parsed (lit "vocabulary") with
  | inl e => inl e
  | inr v =>
  match get_property parsed (lit "story") with
  | inl e => inl e
  | inr st =>
  match get_property parsed (lit "quiz") with
  | inl e => inl e
  | inr q =>
      inr {| Types.title := or_default t (lit "Untitled Lesson");
             Types.introduction :=
               or_default i (lit "Welcome to your lesson!");
             Types.vocabulary := array_or_empty v;
             Types.story := or_default st (lit "Let's learn together!");
             Types.quiz := array_or_empty q |}
  end end end end end.

(** [parsed.key] when the read does not throw. *)
Definition property (parsed : json) (key : jsstring) : jsval :=
  match get_property parsed key with
  | inr v => v
  | inl _ => None
  end.

(** The body of the [try] in [generateLesson]. *)
Definition parse_lesson (text : jsstring) : M (World H) Types.LessonContent :=
  fun w =>
    match host_JSON_parse text with
    | None => (Abrupt SyntaxError, w)
    | Some parsed =>
        match lesson_of_parsed parsed with
        | inl e => (Abrupt e, w)
        | inr lesson => (Normal lesson, w)
        end
    end.

Definition failed_to_generate : exn :=
  Error (lit "Failed to generate lesson content").

Definition invalid_format : exn :=
  Error (lit "Invalid lesson format received").

Definition lesson_of_response (response : GenerateContentResponse)
    : M (World H) Types.LessonContent :=
  match text response with
  | Some t =>
      if truthy_string t then
        try_catch (parse_lesson t)
          (fun error =>
             console_error [LString (lit "Failed to parse JSON:");
                            LString t; LExn error];;
             throw invalid_format)
      else throw failed_to_generate
  | None => throw failed_to_generate
  end.

Definition generateLesson (topic : jsstring)
    : M (World H) Types.LessonContent :=
  ai ← getAiClient;
  response ← host_call (GenerateContent (lesson_params topic))
               (host_generateContent ai (lesson_params topic));
  lesson_of_response response.

Definition speech_params (text : jsstring) : GenerateContentParameters :=
  {| model := lit "gemini-2.5-flash-preview-tts";
     contents := text;
     config := Speech (lit "Kore") |}.

(** [response.candidates?.[0]?.content?.parts?.[0]?.inlineData?.data] *)
Definition inline_audio (response : GenerateContentResponse)
    : option jsstring :=
  cs ← candidates response;
  c ← head cs;
  ct ← content c;
  ps ← parts ct;
  p ← head ps;
  b ← inlineData p;
  data b.

Definition play (frame : AudioUtils.AudioFrame) (ctx : ctxref)
    : M (World H) unit :=
  fun w =>
    host_call (PlayAudioBuffer frame ctx (host_state ctx (host w)))
      (audioUtils_playAudioBuffer frame ctx) w.

(** The body of the [try] in [playTextToSpeech]. *)
Definition playTextToSpeech_body (text : jsstring) : M (World H) unit :=
  ai ← getAiClient;
  ctx ← getAudioContext;
  response ← host_call (GenerateContent (speech_params text))
               (host_generateContent ai (speech_params text));
  match inline_audio response with
  | Some base64Audio =>
      if truthy_string base64Audio then
        bytes ← host_call (Decode base64Audio)
                  (audioUtils_decode base64Audio);
        audioBuffer ← host_call (DecodeAudioData bytes ctx 24000 1)
                        (audioUtils_decodeAudioData bytes ctx 24000 1);
        play audioBuffer ctx
      else mret tt
  | None => mret tt
  end.

Definition playTextToSpeech (text : jsstring) : M (World H) unit :=
  try_catch (playTextToSpeech_body text)
    (fun error => console_error [LString (lit "TTS Error:"); LExn error]).

Definition chat_model : jsstring := lit "gemini-2.5-flash".

Definition systemInstruction : jsstring :=
  lit "You are a friendly, patient, and helpful primary school English teacher named 'Star Teacher'. You answer questions in a mix of simple English and Chinese to help the student understand. Keep answers concise and encouraging.".

Definition sendChatMessage (history : list HistoryItem)
    (newMessage : jsstring) : M (World H) jsstring :=
  ai ← getAiClient;
  chat ← host_call (ChatsCreate chat_model history systemInstruction)
           (host_chats_create ai chat_model history systemInstruction);
  result ← host_call (SendMessage newMessage)
             (host_sendMessage chat newMessage);
  mret (match text result with
        | Some t =>
            if truthy_string t then t
            else lit "Sorry, I didn't catch that."
        | None => lit "Sorry, I didn't catch that."
        end).

(** ** The life of the module *)

Definition init (h : H) : World H :=
  {| audioContext := None; calls := []; host := h |}.



(** The audio contexts constructed so far, with their sample rates. *)
Definition constructed (evs : list event) : list (ctxref * Z) :=
  omap (fun ev =>
          match ev_call ev with
          | NewAudioContext rate (Some r) => Some (r, rate)
          | _ => None
          end) evs.

(** The calls of [playAudioBuffer] so far. *)
Definition played (evs : list event) : list (ctxref * AudioContextState) :=
  omap (fun ev =>
          match ev_call ev with
          | PlayAudioBuffer _ r st => Some (r, st)
          | _ => None
          end) evs.

(** ** Reading the trace *)

Definition all_returned (evs : list event) : Prop :=
  Forall (fun ev => ev_end ev = returned) evs.

(** How a run that made the calls [new] ended: normally only if every call
    returned; abruptly with [e] (or never) only if the last call threw [e]
    (or hung) and every call before it returned. *)
Definition ends_as {A} (o : outcome A) (new : list event) : Prop :=
  match o with
  | Normal _ => all_returned new
  | Abrupt e =>
      exists pre c, new = pre ++ [Ev c (threw e)] /\ all_returned pre
  | Pending =>
      exists pre c, new = pre ++ [Ev c hung] /\ all_returned pre
  end.

(** A computation that only adds to the trace, and propagates the failure
    of a call unchanged. *)
Definition well_traced {A} (m : M (World H) A) : Prop :=
  forall w, exists new,
    calls (m w).2 = calls w ++ new /\ ends_as (m w).1 new.


(** A computation that leaves the module variable alone and constructs no
    audio context. *)
Definition inert {A} (m : M (World H) A) : Prop :=
  forall w,
    audioContext (m w).2 = audioContext w
    /\ constructed (calls (m w).2) = constructed (calls w).


Definition is_construction (c : call) : bool :=
  match c with
  | NewAudioContext _ (Some _) => true
  | _ => false
  end.

(** The world [getAudioContext] leaves when the variable already holds [r]:
    the state is read, and [resume()] is called if it is [suspended]. *)
Definition checked (r : ctxref) (w : World H) : World H :=
  let st := host_state r (host w) in
  let w1 := record_call (GetState r st) returned (host w) w in
  match st with
  | suspended => record_call (Resume r) returned (host_resume r (host w)) w1
  | _ => w1
  end.

(** A computation that never calls [playAudioBuffer]. *)
Definition silent {A} (m : M (World H) A) : Prop :=
  forall w, played (calls (m w).2) = played (calls w).

Definition is_playback (c : call) : bool :=
  match c with
  | PlayAudioBuffer _ _ _ => true
  | _ => false
  end.

End Service.
End Gemini.


(** * App.tsx: the chat handler *)

Module App.
Import JS Web Types.

Record AppState : Type := {
  view : ViewState;
  loading : bool;
  currentLesson : option LessonContent;
  chatHistory : list ChatMessage;
  inputMessage : jsstring
}.

(** A call of one of the [useState] setters. [setChatHistory] is always
    given an updater function, applied by React to the history of the
    moment. *)
Inductive update : Type :=
| SetView (v : ViewState)
| SetLoading (b : bool)
| SetCurrentLesson (l : option LessonContent)
| SetChatHistory (updater : list ChatMessage -> list ChatMessage)
| SetInputMessage (s : jsstring).

Definition apply_update (u : update) (s : AppState) : AppState :=
  match u with
  | SetView v =>
      {| view := v; loading := loading s; currentLesson := currentLesson s;
         chatHistory := chatHistory s; inputMessage := inputMessage s |}
  | SetLoading b =>
      {| view := view s; loading := b; currentLesson := currentLesson s;
         chatHistory := chatHistory s; inputMessage := inputMessage s |}
  | SetCurrentLesson l =>
      {| view := view s; loading := loading s; currentLesson := l;
         chatHistory := chatHistory s; inputMessage := inputMessage s |}
  | SetChatHistory updater =>
      {| view := view s; loading := loading s;
         currentLesson := currentLesson s;
         chatHistory := updater (chatHistory s);
         inputMessage := inputMessage s |}
  | SetInputMessage m =>
      {| view := view s; loading := loading s;
         currentLesson := currentLesson s;
         chatHistory := chatHistory s; inputMessage := m |}
  end.

(** The state after React has applied the updates in the order issued. *)
Definition apply_updates (us : list update) (s : AppState) : AppState :=
  fold_left (fun acc u => apply_update u acc) us s.

(** The setter calls issued so far, and the service module. *)
Record AppWorld (H : Type) : Type := {
  updates : list update;
  services : Gemini.World H
}.
Arguments updates {H} a.
Arguments services {H} a.

Section Handlers.
Context {H : Type} `{!Host H}.

Definition dispatch (u : update) : M (AppWorld H) unit :=
  fun a =>
    (Normal tt, {| updates := updates a ++ [u]; services := services a |}).

Definition in_services {A} (m : M (Gemini.World H) A) : M (AppWorld H) A :=
  fun a =>
    let '(o, w) := m (services a) in
    (o, {| updates := updates a; services := w |}).

Definition role_string (r : Role) : jsstring :=
  match r with
  | user => lit "user"
  | model => lit "model"
  end.

Definition fallback_text : jsstring :=
  lit "Oops! I had trouble connecting. Please say that again.".

Definition user_message (render : AppState) : ChatMessage :=
  {| role := user; text := inputMessage render; isAudio := None |}.

Definition model_message (t : jsstring) : ChatMessage :=
  {| role := model; text := t; isAudio := None |}.

(** The updater [prev => [...prev, m]]. *)
Definition append_message (m : ChatMessage)
    : list ChatMessage -> list ChatMessage :=
  fun prev => prev ++ [m].

(** The chat history of the render in the format of the API. *)
Definition apiHistory (render : AppState) : list HistoryItem :=
  (fun msg => {| history_role := role_string (role msg);
                 history_parts := [text msg] |})
    <$> chatHistory render.

(** [handleSendMessage], a closure over the [inputMessage] and
    [chatHistory] of the render it was created in. *)
Definition handleSendMessage (render : AppState) : M (AppWorld H) unit :=
  if negb (truthy_string (trim (inputMessage render))) then mret tt
  else
    let userMsg := user_message render in
    dispatch (SetChatHistory (append_message userMsg));;
    dispatch (SetInputMessage []);;
    dispatch (SetLoading true);;
    try_catch_finally
      (responseText ← in_services
                        (Gemini.sendChatMessage (apiHistory render)
                           (text userMsg));
       dispatch (SetChatHistory
                   (append_message (model_message responseText))))
      (fun e =>
         in_services (Gemini.console_error [LExn e]);;
         dispatch (SetChatHistory
                     (append_message (model_message fallback_text))))
      (fun a => {| updates := updates a ++ [SetLoading false];
                   services := services a |}).

End Handlers.
End App.

(** * A browser to run the program in *)

Module Sample.
Import JS Web.

(** A small host: the audio contexts made so far with their states, whether
    the user has interacted with the page yet (the autoplay gate), and what
    the remote model will answer. *)
Record browser : Type := {
  contexts : list AudioContextState;
  gesture : bool;
  audio_reply : option jsstring;
  lesson_reply : option jsstring;
  chat_reply : outcome (option jsstring)
}.

Definition with_contexts (cs : list AudioContextState) (b : browser)
    : browser :=
  {| contexts := cs; gesture := gesture b; audio_reply := audio_reply b;
     lesson_reply := lesson_reply b; chat_reply := chat_reply b |}.

(** A context made before any user gesture starts suspended, and a resume
    request stays pending until there is one. *)
Definition browser_new_AudioContext (rate : Z) (b : browser)
    : outcome ctxref * browser :=
  (Normal (length (contexts b)),
   with_contexts
     (contexts b ++ [if gesture b then running else suspended]) b).

Definition browser_state (r : ctxref) (b : browser) : AudioContextState :=
  nth r (contexts b) closed.

Definition browser_resume (r : ctxref) (b : browser) : browser :=
  if gesture b then with_contexts (<[r := running]> (contexts b)) b else b.

Definition response_of_audio (d : option jsstring) : GenerateContentResponse :=
  {| text := None;
     candidates :=
       Some [{| content :=
                  Some {| parts := Some [{| inlineData :=
                                              Some {| data := d |} |}] |} |}]
  |}.

Definition browser_generateContent (ai : client)
    (params : GenerateContentParameters) (b : browser)
    : outcome GenerateContentResponse * browser :=
  match config params with
  | Speech _ => (Normal (response_of_audio (audio_reply b)), b)
  | LessonSchema =>
      (Normal {| text := lesson_reply b; candidates := None |}, b)
  end.

Definition browser_sendMessage (c : chat) (message : jsstring) (b : browser)
    : outcome GenerateContentResponse * browser :=
  match chat_reply b with
  | Normal t => (Normal {| text := t; candidates := None |}, b)
  | Abrupt e => (Abrupt e, b)
  | Pending => (Pending, b)
  end.

(** The document [{"title":5}]. *)
Definition title_5 : jsstring :=
  lit "{" ++ [34%N] ++ lit "title" ++ [34%N] ++ lit ":5}".

(** [JSON.parse] on the documents this browser is given. *)
Definition documents : list (jsstring * json) :=
  [ (lit "null", JNull);
    (lit "{}", JObject []);
    (title_5, JObject [(lit "title", JNumber 5%float)]);
    (lit "[]", JArray []) ].

Definition browser_JSON_parse (t : jsstring) : option json :=
  snd <$> List.find (fun d => jsstring_eqb (fst d) t) documents.

Definition browser_decode (s : jsstring) (b : browser)
    : outcome (list byte) * browser :=
  match AudioUtils.decode s with
  | AudioUtils.Ok bytes => (Normal bytes, b)
  | AudioUtils.Err _ => (Abrupt (Error (lit "DecodeError")), b)
  end.

Definition browser_decodeAudioData (bytes : list byte) (r : ctxref)
    (rate : Z) (channels : nat) (b : browser)
    : outcome AudioUtils.AudioFrame * browser :=
  match AudioUtils.decodeAudioData AudioUtils.Truncate bytes rate channels with
  | AudioUtils.Ok frame => (Normal frame, b)
  | AudioUtils.Err _ => (Abrupt (Error (lit "FormatError")), b)
  end.

#[global] Instance browser_host : Host browser := {|
  env_API_KEY := Some (lit "key");
  host_new_AudioContext := browser_new_AudioContext;
  host_state := browser_state;
  host_resume := browser_resume;
  host_new_GoogleGenAI := fun _ b => (Normal 0, b);
  host_generateContent := browser_generateContent;
  host_chats_create := fun _ _ _ _ b => (Normal 0, b);
  host_sendMessage := browser_sendMessage;
  host_JSON_parse := browser_JSON_parse;
  audioUtils_decode := browser_decode;
  audioUtils_decodeAudioData := browser_decodeAudioData;
  audioUtils_playAudioBuffer := fun _ _ b => (Normal tt, b)
|}.

(** A page just loaded, before any click; the model answers speech requests
    with the two bytes 0x00 0x80. *)
Definition fresh : browser :=
  {| contexts := []; gesture := false;
     audio_reply := Some (lit "AIA=");
     lesson_reply := Some (lit "null");
     chat_reply := Normal (Some (lit "Hi!")) |}.

Definition clicked : browser :=
  {| contexts := []; gesture := true;
     audio_reply := Some (lit "AIA=");
     lesson_reply := Some (lit "{}");
     chat_reply := Normal (Some (lit "Hi!")) |}.

(** The model answers speech requests with text that is not base64. *)
Definition garbled : browser :=
  {| contexts := []; gesture := true;
     audio_reply := Some (lit "!!!!");
     lesson_reply := None;
     chat_reply := Pending |}.

(** The model answers lesson requests with [{"title":5}]. *)
Definition numeric : browser :=
  {| contexts := []; gesture := true;
     audio_reply := None;
     lesson_reply := Some title_5;
     chat_reply := Abrupt (HostError 503) |}.

End Sample.

(** * Properties of traces *)

Module Trace.
Import JS Web Gemini.

Section Emits.
Context {H : Type} `{!Host H}.

(** Every call the computation makes satisfies [Q]. *)
Definition emits {A} (Q : event -> Prop) (m : M (World H) A) : Prop :=
  forall w, exists new, calls (m w).2 = calls w ++ new /\ Forall Q new.

(** The calls that concern audio: the Web Audio context and the three
    functions of services/audioUtils.ts. *)
Definition is_audio (c : call) : bool :=
  match c with
  | NewAudioContext _ _ | GetState _ _ | Resume _ | Decode _
  | DecodeAudioData _ _ _ _ | PlayAudioBuffer _ _ _ => true
  | _ => false
  end.

Definition is_console (c : call) : bool :=
  match c with
  | ConsoleError _ => true
  | _ => false
  end.

Definition not_audio (ev : event) : Prop := is_audio (ev_call ev) = false.




(** The calls [sendChatMessage] may make, for a given history and
    message. *)
Definition chat_call (history : list HistoryItem) (message : jsstring)
    (ev : event) : Prop :=
  match ev_call ev with
  | ConsoleError args =>
      args = [LString (lit "API_KEY is missing")]
      /\ truthy_key env_API_KEY = false
  | NewGoogleGenAI k => k = env_API_KEY
  | ChatsCreate m h s =>
      m = chat_model /\ h = history /\ s = systemInstruction
  | SendMessage msg => msg = message
  | _ => False
  end.

(** Not a construction of a [GoogleGenAI] client. *)
Definition no_client (ev : event) : Prop :=
  match ev_call ev with
  | NewGoogleGenAI _ => False
  | _ => True
  end.

(** The notice [getAiClient] writes when there is no API key. *)
Definition key_notice : list event :=
  if truthy_key env_API_KEY then []
  else [Ev (ConsoleError [LString (lit "API_KEY is missing")]) returned].

(** [result.text || "Sorry, I didn't catch that."] *)
Definition reply_text (result : GenerateContentResponse) : jsstring :=
  match text result with
  | Some (c :: t) => c :: t
  | _ => lit "Sorry, I didn't catch that."
  end.

(** The calls made from [w] to [w'] start with the construction of a
    client, after the notice about the key if there is one, and construct
    no other client. *)
Definition starts_with_client (w w' : World H) : Prop :=
  exists rest,
    calls w'
    = calls w ++ key_notice
      ++ Ev (NewGoogleGenAI env_API_KEY) (completion_of (getAiClient w).1)
         :: rest
    /\ Forall no_client rest.

(** The first part of [generateLesson]: the client and the request. *)
Definition fetch_lesson (topic : jsstring)
    : M (World H) GenerateContentResponse :=
  ai ← getAiClient;
  host_call (GenerateContent (lesson_params topic))
    (host_generateContent ai (lesson_params topic)).

(** The construction of the client and the one request of
    [generateLesson], the request ending as [k]. *)
Definition lesson_request (topic : jsstring) (k : completion)
    : list event :=
  [Ev (NewGoogleGenAI env_API_KEY) returned;
   Ev (GenerateContent (lesson_params topic)) k].

(** The [console.error] of the [catch] in [generateLesson]. *)
Definition parse_failure (t : jsstring) (cause : exn) : event :=
  Ev (ConsoleError [LString (lit "Failed to parse JSON:"); LString t;
                    LExn cause]) returned.

(** What [playTextToSpeech] does once it has the client and the audio
    context: the rest of the body of its [try]. *)
Definition speak (text : jsstring) (ai : client) (ctx : ctxref)
    : M (World H) unit :=
  response ← host_call (GenerateContent (speech_params text))
               (host_generateContent ai (speech_params text));
  match inline_audio response with
  | Some base64Audio =>
      if truthy_string base64Audio then
        bytes ← host_call (Decode base64Audio)
                  (audioUtils_decode base64Audio);
        audioBuffer ← host_call (DecodeAudioData bytes ctx 24000 1)
                        (audioUtils_decodeAudioData bytes ctx 24000 1);
        play audioBuffer ctx
      else mret tt
  | None => mret tt
  end.

End Emits.
End Trace.

(** * A browser whose audio is not ready at first *)

Module Flaky.
Import JS Web.

(** The number of times the [AudioContext] constructor may still fail, and
    how many contexts were made. *)
Record device : Type := {
  failures : nat;
  made : nat
}.

Definition device_new_AudioContext (rate : Z) (d : device)
    : outcome ctxref * device :=
  match failures d with
  | S n => (Abrupt (HostError 1), {| failures := n; made := made d |})
  | O => (Normal (made d), {| failures := 0; made := S (made d) |})
  end.

Definition device_host : Host device := {|
  env_API_KEY := None;
  host_new_AudioContext := device_new_AudioContext;
  host_state := fun _ _ => running;
  host_resume := fun _ d => d;
  host_new_GoogleGenAI := fun _ d => (Normal 0, d);
  host_generateContent := fun _ _ d => (Abrupt (HostError 2), d);
  host_chats_create := fun _ _ _ _ d => (Normal 0, d);
  host_sendMessage := fun _ _ d =>
    (Normal {| text := Some []; candidates := None |}, d);
  host_JSON_parse := fun _ => None;
  audioUtils_decode := fun _ d => (Abrupt (HostError 3), d);
  audioUtils_decodeAudioData := fun _ _ _ _ d => (Abrupt (HostError 4), d);
  audioUtils_playAudioBuffer := fun _ _ d => (Normal tt, d)
|}.

Definition once : device := {| failures := 1; made := 0 |}.

End Flaky.

(** * App.tsx: the lesson handler and the page *)

Module Page.
Import JS Web Types App.

(** The application state as React holds it, with the alerts shown. *)
Record PageWorld (H : Type) : Type := {
  alerts : list jsstring;
  app : AppWorld H
}.
Arguments alerts {H} p.
Arguments app {H} p.

Section Handlers.
Context {H : Type} `{!Host H}.

Definition alert (message : jsstring) : M (PageWorld H) unit :=
  fun p => (Normal tt, {| alerts := alerts p ++ [message]; app := app p |}).

Definition in_app {A} (m : M (AppWorld H) A) : M (PageWorld H) A :=
  fun p =>
    let '(o, a) := m (app p) in
    (o, {| alerts := alerts p; app := a |}).

Definition load_failed : jsstring :=
  lit "Failed to load lesson. Please try again.".

(** [handleTopicSelect] *)
Definition handleTopicSelect (topicLabel : jsstring) : M (PageWorld H) unit :=
  in_app (dispatch (SetLoading true));;
  try_catch_finally
    (lesson ← in_app (in_services (Gemini.generateLesson topicLabel));
     in_app (dispatch (SetCurrentLesson (Some lesson)));;
     in_app (dispatch (SetView LESSON)))
    (fun e =>
       in_app (in_services (Gemini.console_error [LExn e]));;
       alert load_failed)
    (fun p =>
       {| alerts := alerts p;
          app := {| updates := updates (app p) ++ [SetLoading false];
                    services := services (app p) |} |}).

(** The updates [handleSendMessage] issues before it awaits the reply. *)
Definition sent_updates (render : AppState) : list update :=
  [SetChatHistory (append_message (user_message render));
   SetInputMessage []; SetLoading true].

(** The first message of the chat. *)
Definition greeting : jsstring :=
  lit "Hello! I am Star Teacher. How can I help you learn English today? "
  ++ [20320; 22909; 65281; 25105; 26159; 26143; 26143; 32769; 24072;
      12290; 20170; 22825; 24819; 23398; 28857; 20160; 20040; 65311]%N.

(** The arguments of the [useState] calls. *)
Definition initialState : AppState :=
  {| view := HOME;
     loading := false;
     currentLesson := None;
     chatHistory := [model_message greeting];
     inputMessage := [] |}.

(** The updates the handlers of the page issue between two awaits: React
    applies each of these runs without anything else in between, and runs of
    different handlers in any order. *)
Inductive block : list update -> Prop :=
| block_loading : block [SetLoading true]
| block_lesson lesson :
    block [SetCurrentLesson (Some lesson); SetView LESSON; SetLoading false]
| block_done : block [SetLoading false]
| block_sent (m : ChatMessage) :
    block [SetChatHistory (append_message m); SetInputMessage [];
           SetLoading true]
| block_reply (m : ChatMessage) :
    block [SetChatHistory (append_message m); SetLoading false]
| block_home : block [SetView HOME]
| block_chat : block [SetView CHAT]
| block_input (v : jsstring) : block [SetInputMessage v].

(** The update logs the page can build. *)
Inductive log : list update -> Prop :=
| log_nil : log []
| log_block us b : log us -> block b -> log (us ++ b).

(** A list of updates is made of blocks. *)
Inductive blocks : list update -> Prop :=
| blocks_nil : blocks []
| blocks_cons b us : block b -> blocks us -> blocks (b ++ us).

End Handlers.
End Page.

(** * components/Button.tsx, and the send button of App.tsx *)

Module Components.
Import JS Types App.

Inductive Variant : Type := primary | secondary | outline.
Inductive Size : Type := sm | md | lg.

(** The value of a prop: [undefined], a boolean, a string or a handler. *)
Inductive attr : Type :=
| AUndefined
| ABool (b : bool)
| AString (s : jsstring)
| AHandler (id : nat).

(** An object as its properties in the order they were written: a later
    property with the same name replaces an earlier one, as in an object
    literal with a spread. *)
Definition object : Type := list (jsstring * attr).

Fixpoint get (key : jsstring) (o : object) : option attr :=
  match o with
  | [] => None
  | (k, v) :: r =>
      match get key r with
      | Some v' => Some v'
      | None => if jsstring_eqb k key then Some v else None
      end
  end.

(** The props of [Button] as its parameter pattern takes them apart:
    [children], [variant], [size], [isLoading] and [className], each
    possibly absent, and [...props], every other prop that was passed. *)
Record ButtonProps (Node : Type) : Type := {
  children : Node;
  variant : option Variant;
  size : option Size;
  isLoading : option bool;
  className : option jsstring;
  props : object
}.
Arguments children {Node} b.
Arguments variant {Node} b.
Arguments size {Node} b.
Arguments isLoading {Node} b.
Arguments className {Node} b.
Arguments props {Node} b.

(** What the button shows: the spinner or its children. *)
Inductive content (Node : Type) : Type :=
| Spinner
| Children (c : Node).
Arguments Spinner {Node}.
Arguments Children {Node} c.

(** The [button] element: its props and its content. *)
Record element (Node : Type) : Type := {
  attributes : object;
  body : content Node
}.
Arguments attributes {Node} e.
Arguments body {Node} e.

Definition baseStyle : jsstring :=
  lit "rounded-full font-bold transition-all duration-200 flex items-center justify-center gap-2 active:scale-95 disabled:opacity-50 disabled:cursor-not-allowed".

Definition variants (v : Variant) : jsstring :=
  match v with
  | primary => lit "bg-primary hover:bg-indigo-700 text-white shadow-lg hover:shadow-indigo-500/30 border-2 border-transparent"
  | secondary => lit "bg-secondary hover:bg-amber-600 text-white shadow-lg hover:shadow-amber-500/30 border-2 border-transparent"
  | outline => lit "bg-white text-primary border-2 border-primary hover:bg-indigo-50"
  end.

Definition sizes (s : Size) : jsstring :=
  match s with
  | sm => lit "px-3 py-1 text-sm"
  | md => lit "px-6 py-2 text-base"
  | lg => lit "px-8 py-3 text-lg"
  end.

(** [isLoading || props.disabled] *)
Definition loading_or_disabled (loading : bool) (o : object) : attr :=
  if loading then ABool true
  else match get (lit "disabled") o with
       | Some v => v
       | None => AUndefined
       end.

(** [Button]: the explicit [className] and [disabled] first, then the
    spread of the remaining props. *)
Definition Button {Node} (b : ButtonProps Node) : element Node :=
  let variant := default primary (variant b) in
  let size := default md (size b) in
  let isLoading := default false (isLoading b) in
  let className := default [] (className b) in
  {| attributes :=
       [(lit "className",
         AString (baseStyle ++ lit " " ++ variants variant ++ lit " "
                  ++ sizes size ++ lit " " ++ className));
        (lit "disabled", loading_or_disabled isLoading (props b))]
       ++ props b;
     body := if isLoading then Spinner else Children (children b) |}.

(** Whether the browser treats the button as disabled. *)
Definition is_disabled {Node} (e : element Node) : bool :=
  match get (lit "disabled") (attributes e) with
  | Some (ABool true) => true
  | _ => false
  end.

(** The send button of the chat view, for the state of a render; its
    handler is [handleSendMessage]. *)
Definition send_button (s : AppState) : ButtonProps jsstring :=
  {| children := [55357; 56960]%N;
     variant := None;
     size := None;
     isLoading := None;
     className :=
       Some (lit "aspect-square !p-0 w-12 h-12 rounded-full flex items-center justify-center");
     props :=
       [(lit "onClick", AHandler 0);
        (lit "disabled",
         ABool (negb (truthy_string (trim (inputMessage s))) || loading s))]
  |}.

End Components.

(** * Theorems *)

Import JS AudioUtils.

Example decode_TWFu : decode (lit "TWFu") = Ok ["M"; "a"; "n"]%byte.
Proof. reflexivity. Qed.

Example decode_TWE : decode (lit "TWE=") = Ok ["M"; "a"]%byte.
Proof. reflexivity. Qed.

Example decode_TQ : decode (lit "TQ") = Ok ["M"]%byte.
Proof. reflexivity. Qed.

Example decode_bad : decode (lit "T*==") = Err DecodeError.
Proof. reflexivity. Qed.

Example encode_Ma : encode ["M"; "a"]%byte = lit "TWE=".
Proof. reflexivity. Qed.

Example minus_one :
  decodeAudioData Truncate [x00; x80] 24000 1
  = Ok {| sampleRate := 24000; channelCount := 1; samples := [[(-1)%float]] |}.
Proof. reflexivity. Qed.

(** ** Lists taken three or four elements at a time *)

Section StepInduction.
Context {A : Type} (P : list A -> Prop).

Lemma list_ind_by3 :
  P [] -> (forall a, P [a]) -> (forall a b, P [a; b]) ->
  (forall a b c l, P l -> P (a :: b :: c :: l)) ->
  forall l, P l.
Proof.
  intros H0 H1 H2 H3 l.
  assert (G : forall n l, length l <= n -> P l).
  { clear l. induction n as [|n IH]; intros l Hl.
    - destruct l; [exact H0 | simpl in Hl; lia].
    - destruct l as [|a [|b [|c l]]]; auto.
      apply H3, IH. simpl in Hl. lia. }
  exact (G (length l) l (le_n _)).
Qed.

Lemma list_ind_by4 :
  P [] -> (forall a, P [a]) -> (forall a b, P [a; b]) ->
  (forall a b c, P [a; b; c]) ->
  (forall a b c d l, P l -> P (a :: b :: c :: d :: l)) ->
  forall l, P l.
Proof.
  intros H0 H1 H2 H3 H4 l.
  assert (G : forall n l, length l <= n -> P l).
  { clear l. induction n as [|n IH]; intros l Hl.
    - destruct l; [exact H0 | simpl in Hl; lia].
    - destruct l as [|a [|b [|c [|d l]]]]; auto.
      apply H4, IH. simpl in Hl. lia. }
  exact (G (length l) l (le_n _)).
Qed.

Lemma list_ind_by2 :
  P [] -> (forall a, P [a]) ->
  (forall a b l, P l -> P (a :: b :: l)) ->
  forall l, P l.
Proof.
  intros H0 H1 H2 l.
  assert (G : forall n l, length l <= n -> P l).
  { clear l. induction n as [|n IH]; intros l Hl.
    - destruct l; [exact H0 | simpl in Hl; lia].
    - destruct l as [|a [|b l]]; auto.
      apply H2, IH. simpl in Hl. lia. }
  exact (G (length l) l (le_n _)).
Qed.
End StepInduction.

(** ** Bytes *)

Lemma byte_to_N_lt (b : byte) : (Byte.to_N b < 256)%N.
Proof. pose proof (Byte.to_N_bounded b). lia. Qed.

Lemma to_N_byte_of_N (n : N) : Byte.to_N (byte_of_N n) = (n mod 256)%N.
Proof.
  unfold byte_of_N.
  pose proof (Byte.to_of_N_option_map (n mod 256)) as H.
  assert (Hlt : (n mod 256 < 256)%N) by (apply N.mod_lt; lia).
  destruct (N.leb_spec (n mod 256) 255) as [_|Hgt]; [|lia].
  destruct (Byte.of_N (n mod 256)) as [b|]; simpl in H; congruence.
Qed.

Lemma byte_of_N_to_N (b : byte) : byte_of_N (Byte.to_N b) = b.
Proof.
  unfold byte_of_N. rewrite N.mod_small by apply byte_to_N_lt.
  now rewrite Byte.of_to_N.
Qed.

Lemma byte_of_N_eq (n : N) (b : byte) :
  (n mod 256 = Byte.to_N b)%N -> byte_of_N n = b.
Proof.
  intros H. rewrite <- (byte_of_N_to_N b), <- H.
  unfold byte_of_N. now rewrite N.Div0.mod_mod.
Qed.

(** ** Base64 digits *)

Lemma b64_index_char (i : N) : (i < 64)%N -> b64_index (b64_char i) = Some i.
Proof.
  intros Hi. unfold b64_char, b64_index.
  repeat match goal with
         | |- context [N.ltb ?a ?b] => destruct (N.ltb_spec a b)
         | |- context [N.leb ?a ?b] => destruct (N.leb_spec a b)
         | |- context [N.eqb ?a ?b] => destruct (N.eqb_spec a b)
         | |- _ => progress simpl
         end; try lia; f_equal; lia.
Qed.

Lemma b64_char_not_pad (i : N) : b64_char i <> pad.
Proof.
  unfold b64_char, pad.
  repeat match goal with
         | |- context [N.ltb ?a ?b] => destruct (N.ltb_spec a b)
         | |- context [N.eqb ?a ?b] => destruct (N.eqb_spec a b)
         end; lia.
Qed.

Lemma b64_digits_lt (bytes : list byte) :
  Forall (fun d => (d < 64)%N) (b64_digits bytes).
Proof.
  induction bytes as [| a | a b | a b c l IH] using list_ind_by3; simpl.
  - constructor.
  - pose proof (byte_to_N_lt a).
    repeat constructor.
    + apply N.Div0.div_lt_upper_bound; lia.
    + apply N.mod_lt; lia.
  - pose proof (byte_to_N_lt a). pose proof (byte_to_N_lt b).
    repeat constructor; try (apply N.mod_lt; lia).
    apply N.Div0.div_lt_upper_bound; lia.
  - pose proof (byte_to_N_lt a). pose proof (byte_to_N_lt b).
    pose proof (byte_to_N_lt c).
    repeat constructor; try (apply N.mod_lt; lia); try exact IH.
    apply N.Div0.div_lt_upper_bound; lia.
Qed.

Lemma mapM_b64_index_chars (ds : list N) :
  Forall (fun d => (d < 64)%N) ds ->
  mapM b64_index (List.map b64_char ds) = Some ds.
Proof.
  induction 1 as [|d ds Hd _ IH]; [reflexivity|].
  cbn. rewrite b64_index_char by exact Hd. cbn. now rewrite IH.
Qed.

Ltac euclid := Z.to_euclidean_division_equations; lia.

Lemma decode_groups_digits (bytes : list byte) :
  decode_groups (b64_digits bytes) = bytes.
Proof.
  induction bytes as [| a | a b | a b c l IH] using list_ind_by3.
  - reflexivity.
  - pose proof (byte_to_N_lt a). cbn. f_equal.
    apply byte_of_N_eq. zify. euclid.
  - pose proof (byte_to_N_lt a). pose proof (byte_to_N_lt b).
    cbn. f_equal; [|f_equal]; apply byte_of_N_eq; zify; euclid.
  - pose proof (byte_to_N_lt a). pose proof (byte_to_N_lt b).
    pose proof (byte_to_N_lt c).
    cbn [b64_digits decode_groups]. rewrite IH.
    f_equal; [|f_equal; [|f_equal]]; apply byte_of_N_eq; zify; euclid.
Qed.

Lemma length_b64_digits (bytes : list byte) :
  length (b64_digits bytes)
  = 4 * (length bytes / 3)
    + match length bytes mod 3 with 0 => 0 | 1 => 2 | _ => 3 end.
Proof.
  induction bytes as [| a | a b | a b c l IH] using list_ind_by3;
    try reflexivity.
  cbn [b64_digits length]. rewrite IH.
  replace (S (S (S (length l)))) with (length l + 1 * 3) by lia.
  rewrite Nat.div_add, Nat.Div0.mod_add by lia. lia.
Qed.

Lemma length_decode_groups (idx : list N) :
  length (decode_groups idx)
  = 3 * (length idx / 4)
    + match length idx mod 4 with 2 => 1 | 3 => 2 | _ => 0 end.
Proof.
  induction idx as [| a | a b | a b c | a b c d l IH] using list_ind_by4;
    try reflexivity.
  cbn [decode_groups length]. rewrite IH.
  replace (S (S (S (S (length l))))) with (length l + 1 * 4) by lia.
  rewrite Nat.div_add, Nat.Div0.mod_add by lia. lia.
Qed.

(** ** Padding *)

Lemma strip_padding_unpadded (s : jsstring) :
  length s mod 4 <> 0 -> strip_padding s = s.
Proof.
  intros H. unfold strip_padding.
  now destruct (Nat.eqb_spec (length s mod 4) 0).
Qed.

Lemma strip_padding_app (s : jsstring) :
  exists k, k <= 2 /\ s = strip_padding s ++ repeat pad k
            /\ (length s mod 4 <> 0 -> k = 0).
Proof.
  unfold strip_padding.
  destruct (Nat.eqb_spec (length s mod 4) 0) as [Hm|Hm].
  2: { exists 0. rewrite app_nil_r. auto. }
  destruct (rev s) as [|c1 r1] eqn:Hr.
  { exists 0. rewrite app_nil_r. repeat split; auto; lia. }
  destruct (N.eqb_spec c1 pad) as [->|Hc1].
  2: { exists 0. rewrite app_nil_r. repeat split; auto; lia. }
  assert (Hs : s = rev r1 ++ [pad]).
  { rewrite <- (rev_involutive s), Hr. reflexivity. }
  destruct r1 as [|c2 r2].
  { exists 1. repeat split; auto; lia. }
  destruct (N.eqb_spec c2 pad) as [->|Hc2].
  - exists 2. repeat split; try lia.
    rewrite Hs. simpl. now rewrite <- app_assoc.
  - exists 1. repeat split; auto; lia.
Qed.

Lemma padding_le_2 (s : jsstring) : padding s <= 2.
Proof.
  unfold padding. destruct (strip_padding_app s) as (k & Hk & Hs & _).
  rewrite Hs at 1. rewrite length_app, repeat_length. lia.
Qed.

Lemma length_strip_padding (s : jsstring) :
  length (strip_padding s) = length s - padding s
  /\ padding s <= length s
  /\ (length s mod 4 <> 0 -> padding s = 0).
Proof.
  unfold padding. destruct (strip_padding_app s) as (k & Hk & Hs & H0).
  assert (length s = length (strip_padding s) + k) as E.
  { rewrite Hs at 1. now rewrite length_app, repeat_length. }
  repeat split; try lia.
Qed.

Lemma strip_padding_encode (bytes : list byte) :
  strip_padding (encode bytes) = List.map b64_char (b64_digits bytes).
Proof.
  unfold encode, strip_padding.
  set (ds := List.map b64_char (b64_digits bytes)).
  set (k := (3 - length bytes mod 3) mod 3).
  assert (Hlen : length (ds ++ repeat pad k) mod 4 = 0).
  { rewrite length_app, repeat_length. unfold ds.
    rewrite length_map, length_b64_digits. unfold k.
    destruct (length bytes mod 3) as [|[|[|]]] eqn:E; zify; euclid. }
  rewrite Hlen. cbn [Nat.eqb].
  assert (Hk : k <= 2).
  { unfold k. pose proof (Nat.mod_upper_bound (3 - length bytes mod 3) 3).
    lia. }
  assert (Hhead : forall c r, rev ds = c :: r -> (c =? pad)%N = false).
  { intros c r E. apply N.eqb_neq.
    assert (Hin : In c ds).
    { apply in_rev. rewrite E. now left. }
    unfold ds in Hin. apply in_map_iff in Hin as (d & <- & _).
    apply b64_char_not_pad. }
  rewrite rev_app_distr, rev_repeat.
  destruct k as [|[|[|k]]]; try lia; cbn [repeat app].
  - rewrite app_nil_r.
    destruct (rev ds) as [|c r] eqn:E; [reflexivity|].
    now rewrite (Hhead c r eq_refl).
  - rewrite N.eqb_refl.
    destruct (rev ds) as [|c r] eqn:E.
    + now rewrite <- (rev_involutive ds), E.
    + rewrite (Hhead c r eq_refl). now rewrite <- E, rev_involutive.
  - rewrite !N.eqb_refl. apply rev_involutive.
Qed.

(** The decoder inverts the encoder. *)
Lemma decode_encode (bytes : list byte) : decode (encode bytes) = Ok bytes.
Proof.
  unfold decode. rewrite strip_padding_encode, length_map, length_b64_digits.
  assert (H1 : ((4 * (length bytes / 3)
         + match length bytes mod 3 with 0 => 0 | 1 => 2 | _ => 3 end)
         mod 4 =? 1) = false).
  { apply Nat.eqb_neq.
    destruct (length bytes mod 3) as [|[|]];
      rewrite Nat.add_comm, Nat.mul_comm, Nat.Div0.mod_add; cbn; lia. }
  rewrite H1, mapM_b64_index_chars by apply b64_digits_lt.
  now rewrite decode_groups_digits.
Qed.

(** ** 16-bit samples *)

Lemma int16_le_range (lo hi : byte) : is_int16 (int16_le lo hi).
Proof.
  unfold is_int16, int16_le.
  pose proof (byte_to_N_lt lo). pose proof (byte_to_N_lt hi).
  destruct (Z.ltb_spec (Z.of_N (Byte.to_N lo) + 256 * Z.of_N (Byte.to_N hi))
              32768); lia.
Qed.

Lemma in_zrange (z lo : Z) (n : nat) :
  (lo <= z < lo + Z.of_nat n)%Z -> In z (zrange lo n).
Proof.
  revert lo. induction n as [|n IH]; intros lo Hz; [lia|].
  cbn [zrange]. destruct (Z.eq_dec lo z) as [->|Hne]; [now left|].
  right. apply IH. lia.
Qed.

Lemma normalize_all_exact :
  forallb normalize_is_exact (zrange (-32768) (256 * 256)) = true.
Proof. vm_compute. reflexivity. Qed.

(** Dividing a 16-bit integer by 32768.0 is exact in binary64 (and in
    binary32), and the clamp never moves the quotient. *)
Lemma normalize_exact (z : Z) :
  is_int16 z ->
  exists q, exact (normalize z) = Some q /\ (q == Qmake z 32768)%Q.
Proof.
  intros Hz.
  pose proof (proj1 (forallb_forall _ _) normalize_all_exact z) as H.
  assert (Hin : In z (zrange (-32768) (256 * 256))).
  { apply in_zrange. unfold is_int16 in Hz. lia. }
  specialize (H Hin). unfold normalize_is_exact in H.
  destruct (exact (normalize z)) as [q|]; [|discriminate].
  exists q. split; [reflexivity|]. now apply Qeq_bool_eq.
Qed.

Lemma length_int16_pairs (bytes : list byte) :
  length (int16_pairs bytes) = length bytes / 2.
Proof.
  induction bytes as [| a | a b l IH] using list_ind_by2; try reflexivity.
  cbn [int16_pairs length]. rewrite IH.
  replace (S (S (length l))) with (length l + 1 * 2) by lia.
  rewrite Nat.div_add by lia. lia.
Qed.

Lemma int16_pairs_lookup (bytes : list byte) (j : nat) (lo hi : byte) :
  bytes !! (2 * j) = Some lo -> bytes !! (2 * j + 1) = Some hi ->
  int16_pairs bytes !! j = Some (int16_le lo hi).
Proof.
  revert j. induction bytes as [| a | a b l IH] using list_ind_by2;
    intros j Hlo Hhi.
  - discriminate.
  - destruct j; simpl in Hhi; [discriminate|].
    replace (2 * S j + 1) with (S (S (2 * j + 1))) in Hhi by lia.
    discriminate.
  - destruct j as [|j].
    + simpl in Hlo, Hhi. now inversion Hlo; inversion Hhi.
    + replace (2 * S j) with (S (S (2 * j))) in Hlo by lia.
      replace (2 * S j + 1) with (S (S (2 * j + 1))) in Hhi by lia.
      cbn [int16_pairs]. simpl in Hlo, Hhi. simpl. now apply IH.
Qed.

Lemma wrap16 (x : Z) :
  is_int16 x ->
  (if (x mod 256 + 256 * ((x / 256) mod 256) <? 32768)%Z
   then x mod 256 + 256 * ((x / 256) mod 256)
   else x mod 256 + 256 * ((x / 256) mod 256) - 65536)%Z = x.
Proof.
  unfold is_int16. intros Hx.
  destruct (Z.ltb_spec (x mod 256 + 256 * ((x / 256) mod 256)) 32768);
    euclid.
Qed.

Lemma int16_pairs_pcm_bytes (xs : list Z) :
  Forall is_int16 xs -> int16_pairs (pcm_bytes xs) = xs.
Proof.
  induction 1 as [|x xs Hx _ IH]; [reflexivity|].
  cbn [pcm_bytes flat_map app int16_pairs].
  fold (pcm_bytes xs). rewrite IH. f_equal.
  unfold int16_le. rewrite !to_N_byte_of_N.
  rewrite !N2Z.inj_mod, !Z2N.id
    by (apply Z.mod_pos_bound; lia).
  change (Z.of_N 256) with 256%Z.
  rewrite !Z.mod_mod by lia. now apply wrap16.
Qed.

Lemma length_pcm_bytes (xs : list Z) : length (pcm_bytes xs) = 2 * length xs.
Proof.
  induction xs as [|x xs IH]; [reflexivity|].
  cbn [pcm_bytes flat_map]. fold (pcm_bytes xs).
  rewrite length_app, IH. simpl. lia.
Qed.

(** ** Frames *)

Lemma lookup_fmap_seq {B : Type} (f : nat -> B) (n i : nat) (y : B) :
  (f <$> seq 0 n) !! i = Some y <-> i < n /\ y = f i.
Proof.
  rewrite list_lookup_fmap. split.
  - intros H. destruct (seq 0 n !! i) as [j|] eqn:E; [|discriminate].
    apply lookup_seq in E as [-> Hi]. simpl in H. inversion H. auto.
  - intros [Hi ->]. now rewrite (lookup_seq_lt 0 n i Hi).
Qed.

Lemma decodeAudioData_aligned (p : policy) (bytes : list byte) (rate : Z)
    (channels : nat) :
  length bytes mod (2 * channels) = 0 ->
  decodeAudioData p bytes rate channels = Ok (interpret bytes rate channels).
Proof.
  intros H. unfold decodeAudioData. rewrite H. now destruct p.
Qed.

Lemma decodeAudioData_Ok (p : policy) (bytes : list byte) (rate : Z)
    (channels : nat) (frame : AudioFrame) :
  decodeAudioData p bytes rate channels = Ok frame ->
  frame = interpret bytes rate channels.
Proof.
  unfold decodeAudioData.
  destruct p, (length bytes mod (2 * channels) =? 0); congruence.
Qed.

Lemma frame_bound (bytes : list byte) (channels i c : nat) :
  i < frameCount bytes channels -> c < channels ->
  (i * channels + c) * 2 + 1 < length bytes.
Proof.
  unfold frameCount. intros Hi Hc.
  pose proof (Nat.Div0.mul_div_le (length bytes) (2 * channels)) as Hle.
  assert (S i <= length bytes / (2 * channels)) as Hs by lia.
  apply (Nat.mul_le_mono_l _ _ (2 * channels)) in Hs. nia.
Qed.

Lemma interpret_lookup (bytes : list byte) (rate : Z) (channels c i : nat)
    (chan : list float) (s : float) :
  samples (interpret bytes rate channels) !! c = Some chan ->
  chan !! i = Some s ->
  c < channels /\ i < frameCount bytes channels /\
  exists lo hi,
    bytes !! ((i * channels + c) * 2) = Some lo /\
    bytes !! ((i * channels + c) * 2 + 1) = Some hi /\
    s = normalize (int16_le lo hi).
Proof.
  cbn [interpret samples]. intros Hc Hi.
  apply lookup_fmap_seq in Hc as [Hc ->].
  apply lookup_fmap_seq in Hi as [Hi ->].
  split; [exact Hc|]. split; [exact Hi|].
  pose proof (frame_bound bytes channels i c Hi Hc) as Hb.
  destruct (lookup_lt_is_Some_2 bytes ((i * channels + c) * 2)) as [lo Hlo];
    [lia|].
  destruct (lookup_lt_is_Some_2 bytes ((i * channels + c) * 2 + 1))
    as [hi Hhi]; [lia|].
  exists lo, hi. repeat split; auto.
  rewrite nth_lookup.
  rewrite (int16_pairs_lookup bytes (i * channels + c) lo hi); [reflexivity| |].
  - now rewrite Nat.mul_comm.
  - now rewrite (Nat.mul_comm 2).
Qed.

Lemma interpret_sample (bytes : list byte) (rate : Z) (channels c i : nat) :
  c < channels -> i < frameCount bytes channels ->
  exists chan,
    samples (interpret bytes rate channels) !! c = Some chan /\
    length chan = frameCount bytes channels /\
    chan !! i
    = Some (normalize (nth (i * channels + c) (int16_pairs bytes) 0%Z)).
Proof.
  intros Hc Hi. eexists. split; [|split].
  - cbn [interpret samples]. apply lookup_fmap_seq. eauto.
  - unfold channel_samples. now rewrite length_fmap, length_seq.
  - apply lookup_fmap_seq. eauto.
Qed.

(** ** Properties of the decoder and the interpreter *)

(** C5: for every valid base64 input the decoded byte sequence has length
    [floor (3 * len input / 4)] minus the number of padding characters; for
    an input of length [4 * k] this is [3 * k] minus the padding, which is at
    most two characters. *)
Theorem decode_length (input : jsstring) (bytes : list byte) :
  decode input = Ok bytes ->
  length bytes = 3 * length input / 4 - padding input
  /\ padding input <= 2
  /\ forall k, length input = 4 * k -> length bytes = 3 * k - padding input.
Proof.
  unfold decode. intros H.
  destruct (Nat.eqb_spec (length (strip_padding input) mod 4) 1) as [|Hne];
    [discriminate|].
  destruct (mapM b64_index (strip_padding input)) as [idx|] eqn:Hidx;
    [|discriminate].
  inversion H; subst bytes; clear H.
  apply length_mapM in Hidx.
  rewrite length_decode_groups, <- Hidx.
  destruct (length_strip_padding input) as (Hlen & Hle & Hzero).
  pose proof (padding_le_2 input) as Hp.
  rewrite Hlen in *.
  assert (Hmain : 3 * ((length input - padding input) / 4)
      + match (length input - padding input) mod 4 with
        | 2 => 1 | 3 => 2 | _ => 0 end
      = 3 * length input / 4 - padding input).
  { destruct (Nat.eq_dec (length input mod 4) 0) as [Hz|Hnz].
    - pose proof (Nat.mod_upper_bound (length input - padding input) 4).
      destruct ((length input - padding input) mod 4) as [|[|[|[|]]]] eqn:E;
        try lia; zify; euclid.
    - rewrite (Hzero Hnz) in *. rewrite Nat.sub_0_r in *.
      pose proof (Nat.mod_upper_bound (length input) 4).
      destruct (length input mod 4) as [|[|[|[|]]]] eqn:E;
        try lia; zify; euclid. }
  split; [exact Hmain|]. split; [exact Hp|].
  intros k Hk. rewrite Hmain, Hk.
  replace (3 * (4 * k)) with (3 * k * 4) by lia.
  now rewrite Nat.div_mul by lia.
Qed.

Lemma decode_length_witness :
  decode (lit "TWE=") = Ok ["M"; "a"]%byte
  /\ length ["M"; "a"]%byte = 3 * length (lit "TWE=") / 4 - padding (lit "TWE=")
  /\ padding (lit "TWE=") <= 2
  /\ forall k, length (lit "TWE=") = 4 * k ->
               length ["M"; "a"]%byte = 3 * k - padding (lit "TWE=").
Proof.
  split; [reflexivity|].
  apply (decode_length (lit "TWE=") ["M"; "a"]%byte). reflexivity.
Defined.

(** C7: every frame the interpreter produces has one sample list per
    channel, all of the same length [totalSampleCount / channelCount], and
    sample [i] of channel [c] is read from the byte pair at offset
    [(i * channelCount + c) * 2]. *)
Theorem decodeAudioData_channel_invariant (p : policy) (bytes : list byte)
    (rate : Z) (channels : nat) (frame : AudioFrame) :
  decodeAudioData p bytes rate channels = Ok frame ->
  channelCount frame = channels
  /\ length (samples frame) = channels
  /\ forall c chan, samples frame !! c = Some chan ->
       length chan = length (int16_pairs bytes) / channels
       /\ forall i s, chan !! i = Some s ->
            exists lo hi,
              bytes !! ((i * channels + c) * 2) = Some lo
              /\ bytes !! ((i * channels + c) * 2 + 1) = Some hi
              /\ s = normalize (int16_le lo hi).
Proof.
  intros H. apply decodeAudioData_Ok in H. subst frame.
  split; [reflexivity|]. split.
  { cbn [interpret samples]. now rewrite length_fmap, length_seq. }
  intros c chan Hc. split.
  - cbn [interpret samples] in Hc. apply lookup_fmap_seq in Hc as [_ ->].
    unfold channel_samples. rewrite length_fmap, length_seq.
    unfold frameCount. rewrite length_int16_pairs.
    now rewrite Nat.Div0.div_div.
  - intros i s Hi.
    destruct (interpret_lookup bytes rate channels c i chan s Hc Hi)
      as (_ & _ & Hex). exact Hex.
Qed.

Lemma decodeAudioData_channel_invariant_witness :
  let bytes := [x00; x80; xff; x7f; x01; x00; x02; x00] in
  let frame := interpret bytes 24000 2 in
  channelCount frame = 2
  /\ length (samples frame) = 2
  /\ forall c chan, samples frame !! c = Some chan ->
       length chan = length (int16_pairs bytes) / 2
       /\ forall i s, chan !! i = Some s ->
            exists lo hi,
              bytes !! ((i * 2 + c) * 2) = Some lo
              /\ bytes !! ((i * 2 + c) * 2 + 1) = Some hi
              /\ s = normalize (int16_le lo hi).
Proof.
  exact (decodeAudioData_channel_invariant Reject
           [x00; x80; xff; x7f; x01; x00; x02; x00] 24000 2 _ eq_refl).
Defined.

Lemma int16_ratio_bounds (z : Z) (q : Q) :
  is_int16 z -> (q == Qmake z 32768)%Q -> (-1 <= q <= 1)%Q.
Proof.
  unfold is_int16. intros Hz Hq. rewrite Hq.
  unfold Qle. cbn. lia.
Qed.

Lemma frameCount_whole (bytes : list byte) (channels k : nat) :
  1 <= channels -> length bytes = 2 * channels * k ->
  frameCount bytes channels = k /\ length bytes mod (2 * channels) = 0.
Proof.
  intros Hc Hlen. unfold frameCount. rewrite Hlen. split.
  - rewrite Nat.mul_comm. apply Nat.div_mul. lia.
  - rewrite Nat.mul_comm. apply Nat.Div0.mod_mul.
Qed.

(** C3: on bytes that fill whole frames the interpreter accepts, and the
    [j]-th consecutive byte pair, read as a signed little-endian 16-bit
    integer, divided by 32768.0 and clamped to [-1.0, 1.0], is sample
    [j / channelCount] of channel [j mod channelCount]; its value is exactly
    the integer over 32768. For one channel the pair 0x00 0x80 decodes to
    -1.0 and the pair 0xFF 0x7F to 32767/32768. *)
Theorem decodeAudioData_rule (p : policy) (bytes : list byte) (rate : Z)
    (channels k : nat) :
  1 <= channels -> length bytes = 2 * channels * k ->
  (exists frame,
     decodeAudioData p bytes rate channels = Ok frame
     /\ forall j lo hi,
          bytes !! (2 * j) = Some lo -> bytes !! (2 * j + 1) = Some hi ->
          exists chan s q,
            samples frame !! (j mod channels) = Some chan
            /\ chan !! (j / channels) = Some s
            /\ s = clamp (PrimFloat.div (float_of_Z (int16_le lo hi)) 32768)
            /\ exact s = Some q
            /\ (q == Qmake (int16_le lo hi) 32768)%Q
            /\ (-1 <= q <= 1)%Q)
  /\ decodeAudioData p [x00; x80] rate 1
     = Ok {| sampleRate := rate; channelCount := 1;
             samples := [[(-1)%float]] |}
  /\ exists s q,
       decodeAudioData p [xff; x7f] rate 1
       = Ok {| sampleRate := rate; channelCount := 1; samples := [[s]] |}
       /\ exact s = Some q /\ (q == 32767 # 32768)%Q.
Proof.
  intros Hc Hlen. split; [|split].
  - destruct (frameCount_whole bytes channels k Hc Hlen) as [Hf Ha].
    exists (interpret bytes rate channels).
    split; [now apply decodeAudioData_aligned|].
    intros j lo hi Hlo Hhi.
    assert (Hj : j < channels * k).
    { apply lookup_lt_Some in Hhi. lia. }
    assert (Hmod : j mod channels < channels)
      by (apply Nat.mod_upper_bound; lia).
    assert (Hdiv : j / channels < frameCount bytes channels).
    { rewrite Hf. apply Nat.Div0.div_lt_upper_bound. lia. }
    destruct (interpret_sample bytes rate channels _ _ Hmod Hdiv)
      as (chan & Hchan & _ & Hs).
    assert (Hidx : j / channels * channels + j mod channels = j).
    { pose proof (Nat.div_mod_eq j channels). lia. }
    rewrite Hidx, nth_lookup, (int16_pairs_lookup bytes j lo hi Hlo Hhi)
      in Hs. cbn [default from_option] in Hs.
    destruct (normalize_exact _ (int16_le_range lo hi)) as (q & Hq & Hval).
    exists chan, (normalize (int16_le lo hi)), q.
    repeat split; auto;
      apply (int16_ratio_bounds _ q (int16_le_range lo hi) Hval).
  - now destruct p.
  - exists (normalize 32767).
    destruct (normalize_exact 32767) as (q & Hq & Hval);
      [unfold is_int16; lia|].
    exists q. split; [now destruct p|]. auto.
Qed.

Lemma decodeAudioData_rule_witness :
  exists frame,
    decodeAudioData Truncate [x00; x80; xff; x7f; x01; x00; x02; x00] 24000 2
    = Ok frame
    /\ forall j lo hi,
         [x00; x80; xff; x7f; x01; x00; x02; x00] !! (2 * j) = Some lo ->
         [x00; x80; xff; x7f; x01; x00; x02; x00] !! (2 * j + 1) = Some hi ->
         exists chan s q,
           samples frame !! (j mod 2) = Some chan
           /\ chan !! (j / 2) = Some s
           /\ s = clamp (PrimFloat.div (float_of_Z (int16_le lo hi)) 32768)
           /\ exact s = Some q
           /\ (q == Qmake (int16_le lo hi) 32768)%Q
           /\ (-1 <= q <= 1)%Q.
Proof.
  apply (decodeAudioData_rule Truncate
           [x00; x80; xff; x7f; x01; x00; x02; x00] 24000 2 2);
    [lia | reflexivity].
Defined.

(** C4: 16-bit samples written as little-endian PCM bytes and
    base64-encoded come back from the decoder followed by the interpreter:
    sample [i] of channel [c] is the original sample [i * channelCount + c]
    over 32768, exactly, hence within 1/32768. *)
Theorem pipeline_round_trip (p : policy) (xs : list Z) (rate : Z)
    (channels k : nat) :
  Forall is_int16 xs -> 1 <= channels -> length xs = channels * k ->
  decode (encode (pcm_bytes xs)) = Ok (pcm_bytes xs)
  /\ exists frame,
       pipeline p (encode (pcm_bytes xs)) rate channels = Ok frame
       /\ forall i c, i < k -> c < channels ->
            exists x chan s q,
              xs !! (i * channels + c) = Some x
              /\ samples frame !! c = Some chan
              /\ chan !! i = Some s
              /\ exact s = Some q
              /\ (q == Qmake x 32768)%Q
              /\ (Qabs (q - Qmake x 32768) <= 1 # 32768)%Q.
Proof.
  intros Hxs Hc Hlen. split; [apply decode_encode|].
  unfold pipeline. rewrite decode_encode.
  assert (Hbytes : length (pcm_bytes xs) = 2 * channels * k).
  { rewrite length_pcm_bytes, Hlen. lia. }
  destruct (frameCount_whole _ channels k Hc Hbytes) as [Hf Ha].
  exists (interpret (pcm_bytes xs) rate channels).
  split; [now apply decodeAudioData_aligned|].
  intros i c Hi Hlt.
  assert (Hidx : i * channels + c < length xs) by nia.
  destruct (lookup_lt_is_Some_2 xs _ Hidx) as [x Hx].
  rewrite <- Hf in Hi.
  destruct (interpret_sample (pcm_bytes xs) rate channels c i Hlt Hi)
    as (chan & Hchan & _ & Hs).
  rewrite (int16_pairs_pcm_bytes xs Hxs), nth_lookup, Hx in Hs.
  cbn [default from_option] in Hs.
  assert (Hx16 : is_int16 x).
  { rewrite Forall_forall in Hxs. apply Hxs.
    apply list_elem_of_lookup. eauto. }
  destruct (normalize_exact x Hx16) as (q & Hq & Hval).
  exists x, chan, (normalize x), q. repeat split; auto.
  assert (E : (q - Qmake x 32768 == 0)%Q) by (rewrite Hval; ring).
  rewrite E. unfold Qle. cbn. lia.
Qed.

Lemma pipeline_round_trip_witness :
  decode (encode (pcm_bytes [-32768; 32767; 0; -1]%Z))
  = Ok (pcm_bytes [-32768; 32767; 0; -1]%Z)
  /\ exists frame,
       pipeline Reject (encode (pcm_bytes [-32768; 32767; 0; -1]%Z)) 24000 1
       = Ok frame
       /\ forall i c, i < 4 -> c < 1 ->
            exists x chan s q,
              [-32768; 32767; 0; -1]%Z !! (i * 1 + c) = Some x
              /\ samples frame !! c = Some chan
              /\ chan !! i = Some s
              /\ exact s = Some q
              /\ (q == Qmake x 32768)%Q
              /\ (Qabs (q - Qmake x 32768) <= 1 # 32768)%Q.
Proof.
  apply (pipeline_round_trip Reject [-32768; 32767; 0; -1]%Z 24000 1 4).
  - unfold is_int16. repeat constructor; lia.
  - lia.
  - reflexivity.
Defined.

Example encode_samples :
  encode (pcm_bytes [-32768; 32767; 0; -1]%Z) = lit "AID/fwAA//8=".
Proof. reflexivity. Qed.

(** * The service module *)

Import Web Gemini.

Ltac unfold_M :=
  unfold mbind, M_bind, mret, M_ret, bind, ret, throw in *.

Ltac assoc_right :=
  repeat first [rewrite <- app_assoc | progress cbn [app]].

Section ServiceProofs.
Context {H : Type} `{!Host H}.

Implicit Types (w : World H) (new : list event).

(** ** Traces *)

Lemma all_returned_app new1 new2 :
  all_returned new1 -> all_returned new2 -> all_returned (new1 ++ new2).
Proof. unfold all_returned. intros. now apply Forall_app. Qed.

Lemma well_traced_ret {A} (a : A) : well_traced (H := H) (mret a).
Proof.
  intros w. exists []. cbn. rewrite app_nil_r. split; [reflexivity|].
  constructor.
Qed.

Lemma well_traced_host_call {A} (c : call) (op : H -> outcome A * H) :
  well_traced (H := H) (host_call c op).
Proof.
  intros w. unfold host_call. destruct (op (host w)) as [o h].
  exists [Ev c (completion_of o)]. split; [reflexivity|].
  destruct o as [a|e|]; cbn.
  - repeat constructor.
  - exists [], c. split; [reflexivity | constructor].
  - exists [], c. split; [reflexivity | constructor].
Qed.

Lemma well_traced_bind {A B} (m : M (World H) A) (k : A -> M (World H) B) :
  well_traced m -> (forall a, well_traced (k a)) -> well_traced (m ≫= k).
Proof.
  intros Hm Hk w. unfold_M.
  destruct (Hm w) as (new1 & Hc1 & He1).
  destruct (m w) as [[a|e|] w1]; cbn in *.
  - destruct (Hk a w1) as (new2 & Hc2 & He2).
    exists (new1 ++ new2). rewrite Hc2, Hc1, app_assoc.
    split; [reflexivity|].
    destruct (k a w1) as [[b|e|] w2]; cbn in *.
    + now apply all_returned_app.
    + destruct He2 as (pre & c & -> & Hpre).
      exists (new1 ++ pre), c. rewrite app_assoc.
      split; [reflexivity | now apply all_returned_app].
    + destruct He2 as (pre & c & -> & Hpre).
      exists (new1 ++ pre), c. rewrite app_assoc.
      split; [reflexivity | now apply all_returned_app].
  - exists new1. auto.
  - exists new1. auto.
Qed.

Lemma well_traced_console_error (args : list logarg) :
  well_traced (H := H) (console_error args).
Proof. apply well_traced_host_call. Qed.

Lemma well_traced_new_AudioContext (rate : Z) :
  well_traced (H := H) (new_AudioContext rate).
Proof.
  intros w. unfold new_AudioContext.
  destruct (host_new_AudioContext rate (host w)) as [o h].
  eexists [_]. split; [reflexivity|].
  destruct o as [a|e|]; cbn.
  - repeat constructor.
  - eexists [], _. split; [reflexivity | constructor].
  - eexists [], _. split; [reflexivity | constructor].
Qed.

Lemma well_traced_set_audioContext (r : ctxref) :
  well_traced (H := H) (set_audioContext r).
Proof.
  intros w. exists []. cbn. rewrite app_nil_r. split; [reflexivity|].
  constructor.
Qed.

Lemma well_traced_read_state (r : ctxref) :
  well_traced (H := H) (read_state r).
Proof.
  intros w. eexists [_]. split; [reflexivity|]. repeat constructor.
Qed.

Lemma well_traced_resume_context (r : ctxref) :
  well_traced (H := H) (resume_context r).
Proof. apply well_traced_host_call. Qed.

Lemma well_traced_getAudioContext : well_traced (H := H) getAudioContext.
Proof.
  unfold getAudioContext.
  apply well_traced_bind.
  - intros w. destruct (audioContext w) as [r|] eqn:E.
    + exists []. cbn. rewrite app_nil_r.
      split; [reflexivity | constructor].
    + assert (Hn : well_traced
                (new_AudioContext 24000 ≫= fun r =>
                 set_audioContext r ≫= fun _ => mret r)).
      { apply well_traced_bind; [apply well_traced_new_AudioContext|].
        intros r. apply well_traced_bind;
          [apply well_traced_set_audioContext|].
        intros _. apply well_traced_ret. }
      destruct (Hn w) as (new & Hc & He). exists new. auto.
  - intros r. apply well_traced_bind; [apply well_traced_read_state|].
    intros st. apply well_traced_bind.
    + destruct st;
        [apply well_traced_resume_context | apply well_traced_ret ..].
    + intros _. apply well_traced_ret.
Qed.

Lemma well_traced_getAiClient : well_traced (H := H) getAiClient.
Proof.
  unfold getAiClient. apply well_traced_bind.
  - destruct (truthy_key env_API_KEY);
      [apply well_traced_ret | apply well_traced_console_error].
  - intros _. apply well_traced_host_call.
Qed.

Lemma well_traced_play (frame : AudioUtils.AudioFrame) (ctx : ctxref) :
  well_traced (H := H) (play frame ctx).
Proof.
  intros w. unfold play.
  apply (well_traced_host_call
           (PlayAudioBuffer frame ctx (host_state ctx (host w)))
           (audioUtils_playAudioBuffer frame ctx) w).
Qed.

Lemma well_traced_playTextToSpeech_body (text : JS.jsstring) :
  well_traced (H := H) (playTextToSpeech_body text).
Proof.
  unfold playTextToSpeech_body.
  apply well_traced_bind; [apply well_traced_getAiClient|]. intros ai.
  apply well_traced_bind; [apply well_traced_getAudioContext|]. intros ctx.
  apply well_traced_bind; [apply well_traced_host_call|]. intros response.
  destruct (inline_audio response) as [base64Audio|];
    [|apply well_traced_ret].
  destruct (JS.truthy_string base64Audio); [|apply well_traced_ret].
  apply well_traced_bind; [apply well_traced_host_call|]. intros bytes.
  apply well_traced_bind; [apply well_traced_host_call|]. intros buffer.
  apply well_traced_play.
Qed.

Lemma all_returned_no_throw new c e :
  all_returned new -> Ev c (threw e) ∈ new -> False.
Proof.
  unfold all_returned. rewrite Forall_forall. intros Hall Hin.
  specialize (Hall _ Hin). discriminate.
Qed.

(** C1: whatever fails while the client is made, the audio context is
    obtained, the speech is requested, the payload is decoded or the buffer
    is played, the promise of [playTextToSpeech] is never rejected: after a
    call that threw (or a promise that was rejected) with [e] the only thing
    that follows is [console.error("TTS Error:", e)], and the promise is
    fulfilled. It stays pending only when an awaited promise never
    settles. *)
Theorem playTextToSpeech_never_rejects (text : JS.jsstring) w :
  exists new,
    calls (playTextToSpeech text w).2 = calls w ++ new
    /\ match (playTextToSpeech text w).1 with
       | JS.Normal _ =>
           all_returned new
           \/ exists pre c e,
                new = pre ++ [Ev c (threw e);
                              Ev (ConsoleError
                                    [LString (JS.lit "TTS Error:"); LExn e])
                                 returned]
                /\ all_returned pre
       | JS.Abrupt _ => False
       | JS.Pending =>
           exists pre c, new = pre ++ [Ev c hung] /\ all_returned pre
       end
    /\ forall c e, Ev c (threw e) ∈ new ->
         (playTextToSpeech text w).1 = JS.Normal tt
         /\ last new
            = Some (Ev (ConsoleError [LString (JS.lit "TTS Error:"); LExn e])
                      returned).
Proof.
  unfold playTextToSpeech, JS.try_catch.
  destruct (well_traced_playTextToSpeech_body text w) as (new & Hc & He).
  destruct (playTextToSpeech_body text w) as [[[]|e|] w1];
    cbn [fst snd ends_as] in *.
  - exists new. split; [exact Hc|]. split; [now left|].
    intros c e Hin. now destruct (all_returned_no_throw new c e).
  - destruct He as (pre & c & -> & Hpre).
    set (logged := Ev (ConsoleError [LString (JS.lit "TTS Error:"); LExn e])
                     returned).
    exists (pre ++ [Ev c (threw e); logged]).
    split.
    { unfold console_error, host_call, record_call. cbn [fst snd calls].
      rewrite Hc, <- !app_assoc. reflexivity. }
    split; [right; eauto|].
    intros c' e' Hin. split; [reflexivity|].
    apply elem_of_app in Hin as [Hin|Hin].
    + now destruct (all_returned_no_throw pre c' e').
    + apply elem_of_cons in Hin as [Hin|Hin].
      * inversion Hin; subst.
        change (pre ++ [Ev c (threw e); logged])
          with (pre ++ [Ev c (threw e)] ++ [logged]).
        now rewrite app_assoc, last_snoc.
      * apply list_elem_of_singleton in Hin. discriminate.
  - destruct He as (pre & c & -> & Hpre).
    exists (pre ++ [Ev c hung]). split; [exact Hc|]. split; [eauto|].
    intros c' e' Hin. exfalso.
    apply elem_of_app in Hin as [Hin|Hin].
    + now destruct (all_returned_no_throw pre c' e').
    + apply list_elem_of_singleton in Hin. discriminate.
Qed.

(** ** The audio context *)

Lemma constructed_snoc (evs : list event) (c : call) (k : completion) :
  constructed (evs ++ [Ev c k])
  = constructed evs
    ++ match c with
       | NewAudioContext rate (Some r) => [(r, rate)]
       | _ => []
       end.
Proof.
  unfold constructed. rewrite omap_app. f_equal.
  cbn. now destruct c as [? [?|] | | | | | | | | | |].
Qed.

Lemma constructed_snoc_other (evs : list event) (c : call) (k : completion) :
  is_construction c = false ->
  constructed (evs ++ [Ev c k]) = constructed evs.
Proof.
  intros Hc. rewrite constructed_snoc.
  destruct c as [? [?|] | | | | | | | | | |]; try discriminate;
    apply app_nil_r.
Qed.

Lemma inert_ret {A} (a : A) : inert (H := H) (mret a).
Proof. intros w. split; reflexivity. Qed.

Lemma inert_throw {A} (e : JS.exn) : inert (H := H) (A := A) (JS.throw e).
Proof. intros w. split; reflexivity. Qed.

Lemma inert_host_call {A} (c : call) (op : H -> JS.outcome A * H) :
  is_construction c = false -> inert (host_call c op).
Proof.
  intros Hc w. unfold host_call. destruct (op (host w)) as [o h].
  split; [reflexivity|]. cbn. now apply constructed_snoc_other.
Qed.

Lemma inert_bind {A B} (m : M (World H) A) (k : A -> M (World H) B) :
  inert m -> (forall a, inert (k a)) -> inert (m ≫= k).
Proof.
  intros Hm Hk w. unfold_M. destruct (Hm w) as [Ha Hc].
  destruct (m w) as [[a|e|] w1]; cbn in *; auto.
  destruct (Hk a w1) as [Ha' Hc']. split; congruence.
Qed.

Lemma inert_try_catch {A} (body : M (World H) A)
    (handler : JS.exn -> M (World H) A) :
  inert body -> (forall e, inert (handler e)) ->
  inert (JS.try_catch body handler).
Proof.
  intros Hb Hh w. unfold JS.try_catch. destruct (Hb w) as [Ha Hc].
  destruct (body w) as [[a|e|] w1]; cbn in *; auto.
  destruct (Hh e w1) as [Ha' Hc']. split; congruence.
Qed.

Lemma inert_console_error (args : list logarg) :
  inert (H := H) (console_error args).
Proof. now apply inert_host_call. Qed.

Lemma inert_getAiClient : inert (H := H) getAiClient.
Proof.
  unfold getAiClient. apply inert_bind.
  - destruct (truthy_key env_API_KEY);
      [apply inert_ret | apply inert_console_error].
  - intros _. now apply inert_host_call.
Qed.

Lemma inert_play (frame : AudioUtils.AudioFrame) (ctx : ctxref) :
  inert (H := H) (play frame ctx).
Proof.
  intros w. unfold play.
  now apply (inert_host_call
               (PlayAudioBuffer frame ctx (host_state ctx (host w)))).
Qed.




(** With a context in the variable, [getAudioContext] returns it. *)
Lemma getAudioContext_existing w (r : ctxref) :
  audioContext w = Some r ->
  getAudioContext w = (JS.Normal r, checked r w).
Proof.
  intros Hr. unfold getAudioContext, checked. unfold_M. rewrite Hr.
  unfold read_state. cbn.
  now destruct (host_state r (host w)).
Qed.

(** With none, the constructor is called, once. *)
Lemma getAudioContext_fresh w :
  audioContext w = None ->
  match host_new_AudioContext 24000 (host w) with
  | (JS.Normal r, h) =>
      getAudioContext w
      = (JS.Normal r,
         checked r
           {| audioContext := Some r;
              calls := calls w
                       ++ [Ev (NewAudioContext 24000 (Some r)) returned];
              host := h |})
  | (JS.Abrupt e, h) =>
      getAudioContext w
      = (JS.Abrupt e,
         record_call (NewAudioContext 24000 None) (threw e) h w)
  | (JS.Pending, h) =>
      getAudioContext w
      = (JS.Pending, record_call (NewAudioContext 24000 None) hung h w)
  end.
Proof.
  intros Hr. unfold getAudioContext, checked. unfold_M. rewrite Hr.
  unfold new_AudioContext.
  destruct (host_new_AudioContext 24000 (host w)) as [[r|e|] h]; cbn;
    try reflexivity.
  unfold read_state. cbn. now destruct (host_state r h).
Qed.

Lemma checked_fields (r : ctxref) w :
  audioContext (checked r w) = audioContext w
  /\ constructed (calls (checked r w)) = constructed (calls w).
Proof.
  unfold checked.
  destruct (host_state r (host w)); cbn;
    rewrite ?constructed_snoc_other by reflexivity; auto.
Qed.



Lemma inert_lesson_of_response (response : GenerateContentResponse) :
  inert (H := H) (lesson_of_response response).
Proof.
  unfold lesson_of_response.
  destruct (text response) as [t|]; [|apply inert_throw].
  destruct (JS.truthy_string t); [|apply inert_throw].
  apply inert_try_catch.
  - intros w. unfold parse_lesson.
    destruct (host_JSON_parse t) as [parsed|]; [|now split].
    now destruct (lesson_of_parsed parsed).
  - intros e. apply inert_bind; [apply inert_console_error|].
    intros _. apply inert_throw.
Qed.

Lemma inert_generateLesson (topic : JS.jsstring) :
  inert (H := H) (generateLesson topic).
Proof.
  unfold generateLesson.
  apply inert_bind; [apply inert_getAiClient|]. intros ai.
  apply inert_bind; [now apply inert_host_call|]. intros response.
  apply inert_lesson_of_response.
Qed.

Lemma inert_sendChatMessage (history : list HistoryItem)
    (msg : JS.jsstring) :
  inert (H := H) (sendChatMessage history msg).
Proof.
  unfold sendChatMessage.
  apply inert_bind; [apply inert_getAiClient|]. intros ai.
  apply inert_bind; [now apply inert_host_call|]. intros chat.
  apply inert_bind; [now apply inert_host_call|]. intros result.
  apply inert_ret.
Qed.




(** ** Playback *)

Lemma played_app (l1 l2 : list event) :
  played (l1 ++ l2) = played l1 ++ played l2.
Proof. apply omap_app. Qed.

Lemma played_single (c : call) (k : completion) :
  is_playback c = false -> played [Ev c k] = [].
Proof. now destruct c. Qed.

Lemma played_nil_not_in new frame (r : ctxref) st (k : completion) :
  played new = [] -> Ev (PlayAudioBuffer frame r st) k ∈ new -> False.
Proof.
  intros Hp Hin. apply list_elem_of_split in Hin as (l1 & l2 & ->).
  rewrite played_app in Hp. cbn in Hp.
  now apply app_eq_nil in Hp as [_ Hp].
Qed.

Lemma silent_new {A} (m : M (World H) A) w :
  well_traced m -> silent m ->
  exists new, calls (m w).2 = calls w ++ new /\ played new = [].
Proof.
  intros Ht Hs. destruct (Ht w) as (new & Hc & _). exists new.
  split; [exact Hc|]. specialize (Hs w).
  rewrite Hc, played_app in Hs.
  apply (app_inv_head (played (calls w))). now rewrite app_nil_r.
Qed.

Lemma silent_ret {A} (a : A) : silent (H := H) (mret a).
Proof. intros w. reflexivity. Qed.

Lemma silent_host_call {A} (c : call) (op : H -> JS.outcome A * H) :
  is_playback c = false -> silent (host_call c op).
Proof.
  intros Hc w. unfold host_call. destruct (op (host w)) as [o h]. cbn.
  rewrite played_app, played_single by exact Hc. apply app_nil_r.
Qed.

Lemma silent_bind {A B} (m : M (World H) A) (k : A -> M (World H) B) :
  silent m -> (forall a, silent (k a)) -> silent (m ≫= k).
Proof.
  intros Hm Hk w. unfold_M. specialize (Hm w).
  destruct (m w) as [[a|e|] w1]; cbn in *; auto.
  now rewrite Hk.
Qed.

Lemma silent_getAiClient : silent (H := H) getAiClient.
Proof.
  unfold getAiClient. apply silent_bind.
  - destruct (truthy_key env_API_KEY);
      [apply silent_ret | now apply silent_host_call].
  - intros _. now apply silent_host_call.
Qed.

Lemma silent_checked (r : ctxref) w :
  played (calls (checked r w)) = played (calls w).
Proof.
  unfold checked. destruct (host_state r (host w)); cbn;
    rewrite !played_app; cbn; now rewrite ?app_nil_r.
Qed.

Lemma silent_getAudioContext : silent (H := H) getAudioContext.
Proof.
  intros w. destruct (audioContext w) as [r|] eqn:Hr.
  - rewrite (getAudioContext_existing w r Hr). apply silent_checked.
  - pose proof (getAudioContext_fresh w Hr) as Hf.
    destruct (host_new_AudioContext 24000 (host w)) as [[r|e|] h];
      rewrite Hf; cbn [snd].
    + rewrite silent_checked. cbn. rewrite played_app. apply app_nil_r.
    + cbn. rewrite played_app. apply app_nil_r.
    + cbn. rewrite played_app. apply app_nil_r.
Qed.

(** What [getAudioContext] adds to the trace when it returns [r]: possibly
    the construction, then the read of the state of [r], then the resume
    request if the state read was [suspended]. *)
Lemma getAudioContext_trace w (r : ctxref) w' :
  getAudioContext w = (JS.Normal r, w') ->
  exists pre st0 b,
    calls w' = calls w ++ pre ++ Ev (GetState r st0) returned :: b
    /\ played pre = [] /\ played b = []
    /\ (st0 = suspended -> Ev (Resume r) returned ∈ b).
Proof.
  assert (Hchecked : forall w0, exists st0 b,
            calls (checked r w0)
            = calls w0 ++ Ev (GetState r st0) returned :: b
            /\ played b = []
            /\ (st0 = suspended -> Ev (Resume r) returned ∈ b)).
  { intros w0. unfold checked. exists (host_state r (host w0)).
    destruct (host_state r (host w0)); cbn.
    - exists [Ev (Resume r) returned]. rewrite <- app_assoc.
      repeat split; auto. intros _. apply list_elem_of_singleton.
      reflexivity.
    - exists []. repeat split; auto. discriminate.
    - exists []. repeat split; auto. discriminate. }
  intros Hcall. destruct (audioContext w) as [r0|] eqn:Hr.
  - rewrite (getAudioContext_existing w r0 Hr) in Hcall.
    inversion Hcall; subst.
    destruct (Hchecked w) as (st0 & b & Hc & Hb & Hres).
    exists [], st0, b. auto.
  - pose proof (getAudioContext_fresh w Hr) as Hf.
    destruct (host_new_AudioContext 24000 (host w)) as [[r0|e|] h];
      rewrite Hf in Hcall; inversion Hcall; subst.
    destruct (Hchecked
                {| audioContext := Some r;
                   calls := calls w
                     ++ [Ev (NewAudioContext 24000 (Some r)) returned];
                   host := h |}) as (st0 & b & Hc & Hb & Hres).
    exists [Ev (NewAudioContext 24000 (Some r)) returned], st0, b.
    rewrite Hc. cbn [calls]. rewrite <- app_assoc. auto.
Qed.

Lemma played_cons_other (c : call) (k : completion) (l : list event) :
  is_playback c = false -> played (Ev c k :: l) = played l.
Proof. now destruct c. Qed.

Ltac no_playback :=
  left;
  repeat first
    [ rewrite played_app
    | rewrite played_cons_other by reflexivity
    | match goal with Hp : played _ = [] |- _ => rewrite Hp end ];
  reflexivity.

(** Either the body never reaches [playAudioBuffer], or its last call is the
    playback, on the context whose state was read before. *)
Lemma playTextToSpeech_body_trace (text : JS.jsstring) w :
  exists new,
    calls (playTextToSpeech_body text w).2 = calls w ++ new
    /\ (played new = []
        \/ exists a (r : ctxref) st0 b frame st k,
             new = a ++ Ev (GetState r st0) returned
                     :: b ++ [Ev (PlayAudioBuffer frame r st) k]
             /\ played a = [] /\ played b = []
             /\ (st0 = suspended -> Ev (Resume r) returned ∈ b)).
Proof.
  unfold playTextToSpeech_body. unfold_M.
  destruct (silent_new getAiClient w well_traced_getAiClient
              silent_getAiClient) as (newA & HcA & HpA).
  destruct (getAiClient w) as [[ai|e|] w1]; cbn [fst snd] in *;
    try (exists newA; split; [exact HcA | now left]).
  destruct (silent_new getAudioContext w1 well_traced_getAudioContext
              silent_getAudioContext) as (newG & HcG & HpG).
  destruct (getAudioContext w1) as [[r|e|] w2] eqn:EG; cbn [fst snd] in *;
    try (exists (newA ++ newG); split;
         [rewrite HcG, HcA; assoc_right; reflexivity | no_playback]).
  clear newG HcG HpG.
  destruct (getAudioContext_trace w1 r w2 EG)
    as (pre & st0 & b & HcG & Hpre & Hb & Hres).
  unfold host_call at 1.
  destruct (host_generateContent ai (speech_params text) (host w2))
    as [[response|e|] h3]; cbn [fst snd];
    try (cbn [record_call calls]; rewrite HcG, HcA, <- ?app_assoc; assoc_right;
         eexists; split; [reflexivity | no_playback]).
  set (w3 := record_call (GenerateContent (speech_params text))
                (completion_of (JS.Normal response)) h3 w2).
  assert (Hc3 : calls w3
          = calls w ++ (newA ++ pre)
            ++ Ev (GetState r st0) returned
               :: b ++ [Ev (GenerateContent (speech_params text)) returned]).
  { subst w3. cbn [record_call calls].
    rewrite HcG, HcA; assoc_right; reflexivity. }
  clearbody w3.
  destruct (inline_audio response) as [base64Audio|];
    [|eexists; split; [exact Hc3 | no_playback]].
  destruct (JS.truthy_string base64Audio);
    [|eexists; split; [exact Hc3 | no_playback]].
  unfold host_call at 1.
  destruct (audioUtils_decode base64Audio (host w3)) as [[bytes|e|] h4];
    cbn [fst snd];
    try (cbn [record_call calls]; rewrite Hc3, <- ?app_assoc; assoc_right;
         eexists; split; [reflexivity | no_playback]).
  set (w4 := record_call (Decode base64Audio)
                (completion_of (JS.Normal bytes)) h4 w3).
  assert (Hc4 : calls w4
          = calls w ++ (newA ++ pre)
            ++ Ev (GetState r st0) returned
               :: b ++ [Ev (GenerateContent (speech_params text)) returned;
                        Ev (Decode base64Audio) returned]).
  { subst w4. cbn [record_call calls].
    rewrite Hc3; assoc_right; reflexivity. }
  clearbody w4.
  unfold host_call at 1.
  destruct (audioUtils_decodeAudioData bytes r 24000 1 (host w4))
    as [[frame|e|] h5]; cbn [fst snd];
    try (cbn [record_call calls]; rewrite Hc4, <- ?app_assoc; assoc_right;
         eexists; split; [reflexivity | no_playback]).
  set (w5 := record_call (DecodeAudioData bytes r 24000 1)
                (completion_of (JS.Normal frame)) h5 w4).
  assert (Hc5 : calls w5
          = calls w ++ (newA ++ pre)
            ++ Ev (GetState r st0) returned
               :: b ++ [Ev (GenerateContent (speech_params text)) returned;
                        Ev (Decode base64Audio) returned;
                        Ev (DecodeAudioData bytes r 24000 1) returned]).
  { subst w5. cbn [record_call calls].
    rewrite Hc4; assoc_right; reflexivity. }
  clearbody w5.
  unfold play, host_call.
  destruct (audioUtils_playAudioBuffer frame r (host w5)) as [o h6].
  cbn [fst snd record_call calls]. rewrite Hc5, <- ?app_assoc; assoc_right.
  eexists. split; [reflexivity|].
  right.
  exists (newA ++ pre), r, st0,
    (b ++ [Ev (GenerateContent (speech_params text)) returned;
           Ev (Decode base64Audio) returned;
           Ev (DecodeAudioData bytes r 24000 1) returned]),
    frame, (host_state r (host w5)), (completion_of o).
  split; [assoc_right; reflexivity|].
  split; [now rewrite played_app, HpA, Hpre|].
  split; [now rewrite played_app, Hb|].
  intros Hs. apply elem_of_app. left. auto.
Qed.

Lemma playback_guarded new (post : list event) :
  played post = [] ->
  (played new = []
   \/ exists a (r : ctxref) st0 b frame st k,
        new = a ++ Ev (GetState r st0) returned
                :: b ++ [Ev (PlayAudioBuffer frame r st) k]
        /\ played a = [] /\ played b = []
        /\ (st0 = suspended -> Ev (Resume r) returned ∈ b)) ->
  forall frame (r : ctxref) st k,
    Ev (PlayAudioBuffer frame r st) k ∈ new ++ post ->
    exists a st0 b post',
      new ++ post
      = a ++ Ev (GetState r st0) returned
          :: b ++ Ev (PlayAudioBuffer frame r st) k :: post'
      /\ (st0 = suspended -> Ev (Resume r) returned ∈ b)
      /\ played a = [] /\ played b = [] /\ played post' = [].
Proof.
  intros Hpost Hshape frame r st k Hin.
  apply elem_of_app in Hin as [Hin|Hin].
  2: { now destruct (played_nil_not_in post frame r st k). }
  destruct Hshape as [Hnone|Hshape].
  { now destruct (played_nil_not_in new frame r st k). }
  destruct Hshape as (a & r0 & st0 & b & frame0 & st1 & k0 & -> & Ha & Hb
                      & Hres).
  apply elem_of_app in Hin as [Hin|Hin].
  { now destruct (played_nil_not_in a frame r st k). }
  apply elem_of_cons in Hin as [Hin|Hin]; [discriminate|].
  apply elem_of_app in Hin as [Hin|Hin].
  { now destruct (played_nil_not_in b frame r st k). }
  apply list_elem_of_singleton in Hin. inversion Hin; subst.
  exists a, st0, b, post. split; [assoc_right; reflexivity|]. auto.
Qed.

(** C9, as the code has it: the context handed to [playAudioBuffer] is the
    one [getAudioContext] returned earlier in the same call, whose state was
    read then, and if that state was [suspended] a resume was requested
    before the playback call. The request is not awaited: the state the
    context is in when [playAudioBuffer] is called is the host's affair. *)
Theorem playTextToSpeech_resume_requested (text : JS.jsstring) w :
  exists new,
    calls (playTextToSpeech text w).2 = calls w ++ new
    /\ forall frame (r : ctxref) st k,
         Ev (PlayAudioBuffer frame r st) k ∈ new ->
         exists a st0 b post,
           new = a ++ Ev (GetState r st0) returned
                   :: b ++ Ev (PlayAudioBuffer frame r st) k :: post
           /\ (st0 = suspended -> Ev (Resume r) returned ∈ b)
           /\ played a = [] /\ played b = [] /\ played post = [].
Proof.
  unfold playTextToSpeech, JS.try_catch.
  destruct (playTextToSpeech_body_trace text w) as (new & Hc & Hshape).
  destruct (playTextToSpeech_body text w) as [[[]|e|] w1];
    cbn [fst snd] in *.
  - exists new. split; [exact Hc|].
    intros frame r st k Hin.
    rewrite <- (app_nil_r new) in Hin |- *.
    now apply playback_guarded.
  - exists (new ++ [Ev (ConsoleError [LString (JS.lit "TTS Error:"); LExn e])
                      returned]).
    split.
    { unfold console_error, host_call, record_call. cbn [fst snd calls].
      now rewrite Hc, <- app_assoc. }
    now apply playback_guarded.
  - exists new. split; [exact Hc|].
    intros frame r st k Hin.
    rewrite <- (app_nil_r new) in Hin |- *.
    now apply playback_guarded.
Qed.

End ServiceProofs.

(** ** Runs in the sample browser *)


(** A payload that is not base64: [decode] throws, the error is logged and
    the promise is fulfilled. *)
Example playTextToSpeech_garbled :
  (playTextToSpeech (JS.lit "Hello") (init Sample.garbled)).1 = JS.Normal tt
  /\ last (calls (playTextToSpeech (JS.lit "Hello") (init Sample.garbled)).2)
     = Some (Ev (ConsoleError [LString (JS.lit "TTS Error:");
                               LExn (JS.Error (JS.lit "DecodeError"))])
               returned)
  /\ played (calls (playTextToSpeech (JS.lit "Hello")
                      (init Sample.garbled)).2) = [].
Proof. repeat split. Qed.

(** The stronger reading of C9, that the context is never suspended when
    [playAudioBuffer] is called, fails: in a browser that has not yet seen a user
    gesture the context is created suspended, the resume request stays
    pending, and [playAudioBuffer] is called on the suspended context. *)
Lemma playTextToSpeech_plays_suspended :
  (playTextToSpeech (JS.lit "Hello") (init Sample.fresh)).1 = JS.Normal tt
  /\ played (calls (playTextToSpeech (JS.lit "Hello") (init Sample.fresh)).2)
     = [(0, suspended)]
  /\ Ev (Resume 0) returned
     ∈ calls (playTextToSpeech (JS.lit "Hello") (init Sample.fresh)).2.
Proof.
  split; [reflexivity|]. split; [reflexivity|].
  apply list_elem_of_lookup. exists 3. reflexivity.
Qed.


(** * Lessons *)

Section LessonProofs.
Context {H : Type} `{!Host H}.

Implicit Types (w : World H).

Lemma lesson_of_parsed_null : lesson_of_parsed JS.JNull = inl JS.TypeError.
Proof. reflexivity. Qed.

Lemma lesson_of_parsed_value (parsed : JS.json) :
  parsed <> JS.JNull ->
  lesson_of_parsed parsed
  = inr {| Types.title :=
             or_default (property parsed (JS.lit "title"))
               (JS.lit "Untitled Lesson");
           Types.introduction :=
             or_default (property parsed (JS.lit "introduction"))
               (JS.lit "Welcome to your lesson!");
           Types.vocabulary :=
             array_or_empty (property parsed (JS.lit "vocabulary"));
           Types.story :=
             or_default (property parsed (JS.lit "story"))
               (JS.lit "Let's learn together!");
           Types.quiz := array_or_empty (property parsed (JS.lit "quiz")) |}.
Proof.
  intros Hnn. destruct parsed; try congruence; reflexivity.
Qed.

Lemma or_default_spec (v : JS.jsval) (d : JS.jsstring) :
  (JS.truthy v = true -> Some (or_default v d) = v)
  /\ (JS.truthy v = false -> or_default v d = JS.JString d).
Proof.
  unfold or_default. destruct v as [j|]; [|split; [discriminate | reflexivity]].
  destruct (JS.truthy (Some j)); split; congruence.
Qed.

Lemma or_default_string (v : JS.jsval) (d : JS.jsstring) :
  d <> [] ->
  (JS.truthy v = false \/ exists s, v = Some (JS.JString s)) ->
  Types.is_nonempty_string (or_default v d).
Proof.
  intros Hd Hv. unfold Types.is_nonempty_string.
  destruct (JS.truthy v) eqn:Ht.
  - destruct Hv as [Hv|(s & ->)]; [discriminate|].
    exists s. cbn in Ht |- *. rewrite Ht. split; [reflexivity|].
    now destruct s.
  - exists d. destruct (or_default_spec v d) as [_ ->]; auto.
Qed.

Lemma array_or_empty_spec (v : JS.jsval) :
  (forall items, v = Some (JS.JArray items) -> array_or_empty v = items)
  /\ (JS.isArray v = false -> array_or_empty v = []).
Proof.
  split.
  - now intros items ->.
  - destruct v as [[]|]; cbn; congruence.
Qed.

(** What [generateLesson] does with the response of the model. *)
Lemma lesson_of_response_cases (response : GenerateContentResponse) w :
  match text response with
  | None | Some [] =>
      lesson_of_response response w = (JS.Abrupt failed_to_generate, w)
  | Some t =>
      match host_JSON_parse t with
      | None =>
          lesson_of_response response w
          = (JS.Abrupt invalid_format,
             record_call
               (ConsoleError [LString (JS.lit "Failed to parse JSON:");
                              LString t; LExn JS.SyntaxError])
               returned (host w) w)
      | Some JS.JNull =>
          lesson_of_response response w
          = (JS.Abrupt invalid_format,
             record_call
               (ConsoleError [LString (JS.lit "Failed to parse JSON:");
                              LString t; LExn JS.TypeError])
               returned (host w) w)
      | Some parsed =>
          exists lesson,
            lesson_of_parsed parsed = inr lesson
            /\ lesson_of_response response w = (JS.Normal lesson, w)
      end
  end.
Proof.
  unfold lesson_of_response.
  destruct (text response) as [[|c t]|]; try reflexivity.
  cbn [JS.truthy_string]. unfold JS.try_catch, parse_lesson.
  destruct (host_JSON_parse (c :: t)) as [parsed|]; [|reflexivity].
  destruct parsed; try reflexivity;
    (eexists; split; [reflexivity|]; reflexivity).
Qed.

(** C10, as the code has it: given the response of the model,
    [generateLesson] throws exactly when its text is missing or empty, is
    not parseable JSON, or parses to [null]. For a text that parses to any
    other value it returns a lesson whose [vocabulary] and [quiz] are the
    arrays of the parsed value, or empty when the property is missing or not
    an array, and whose [title], [introduction] and [story] are the parsed
    property when it is truthy, of whatever type, and the fixed non-empty
    default string otherwise. *)
Theorem generateLesson_outcome (topic : JS.jsstring) w (ai : client) w1
    (response : GenerateContentResponse) (h : H) :
  getAiClient w = (JS.Normal ai, w1) ->
  host_generateContent ai (lesson_params topic) (host w1)
  = (JS.Normal response, h) ->
  ((exists e w', generateLesson topic w = (JS.Abrupt e, w'))
   <-> (text response = None \/ text response = Some []
        \/ exists t, text response = Some t
             /\ (host_JSON_parse t = None
                 \/ host_JSON_parse t = Some JS.JNull)))
  /\ (forall t parsed,
        text response = Some t -> t <> [] ->
        host_JSON_parse t = Some parsed -> parsed <> JS.JNull ->
        exists lesson w',
          generateLesson topic w = (JS.Normal lesson, w')
          /\ (forall items,
                property parsed (JS.lit "vocabulary")
                = Some (JS.JArray items) ->
                Types.vocabulary lesson = items)
          /\ (JS.isArray (property parsed (JS.lit "vocabulary")) = false ->
              Types.vocabulary lesson = [])
          /\ (forall items,
                property parsed (JS.lit "quiz") = Some (JS.JArray items) ->
                Types.quiz lesson = items)
          /\ (JS.isArray (property parsed (JS.lit "quiz")) = false ->
              Types.quiz lesson = [])
          /\ (JS.truthy (property parsed (JS.lit "title")) = true ->
              Some (Types.title lesson) = property parsed (JS.lit "title"))
          /\ (JS.truthy (property parsed (JS.lit "title")) = false ->
              Types.title lesson = JS.JString (JS.lit "Untitled Lesson"))
          /\ (JS.truthy (property parsed (JS.lit "introduction")) = true ->
              Some (Types.introduction lesson)
              = property parsed (JS.lit "introduction"))
          /\ (JS.truthy (property parsed (JS.lit "introduction")) = false ->
              Types.introduction lesson
              = JS.JString (JS.lit "Welcome to your lesson!"))
          /\ (JS.truthy (property parsed (JS.lit "story")) = true ->
              Some (Types.story lesson) = property parsed (JS.lit "story"))
          /\ (JS.truthy (property parsed (JS.lit "story")) = false ->
              Types.story lesson
              = JS.JString (JS.lit "Let's learn together!"))
          /\ (forall key field,
                (key, field)
                ∈ [(JS.lit "title", Types.title lesson);
                   (JS.lit "introduction", Types.introduction lesson);
                   (JS.lit "story", Types.story lesson)] ->
                JS.truthy (property parsed key) = false
                \/ (exists s, property parsed key = Some (JS.JString s)) ->
                Types.is_nonempty_string field)).
Proof.
  intros Hai Hgen.
  assert (Hrun : generateLesson topic w
                 = lesson_of_response response
                     (record_call (GenerateContent (lesson_params topic))
                        returned h w1)).
  { unfold generateLesson. unfold_M. rewrite Hai.
    unfold host_call. now rewrite Hgen. }
  rewrite Hrun.
  set (w2 := record_call (GenerateContent (lesson_params topic)) returned h w1).
  pose proof (lesson_of_response_cases response w2) as Hcases.
  split.
  - split.
    + intros (e & w' & Hthrow).
      destruct (text response) as [[|c t]|]; auto.
      right. right. exists (c :: t). split; [reflexivity|].
      destruct (host_JSON_parse (c :: t)) as [parsed|]; auto.
      destruct parsed; auto;
        destruct Hcases as (lesson & _ & Hok); congruence.
    + intros [Hnone|[Hempty|(t & Ht & Hparse)]].
      * rewrite Hnone in Hcases. eauto.
      * rewrite Hempty in Hcases. eauto.
      * rewrite Ht in Hcases. destruct t as [|c t]; [eauto|].
        destruct Hparse as [Hp|Hp]; rewrite Hp in Hcases; eauto.
  - intros t parsed Ht Hne Hparse Hnn.
    rewrite Ht in Hcases. destruct t as [|c t]; [congruence|].
    rewrite Hparse in Hcases.
    assert (Hok : exists lesson,
              lesson_of_parsed parsed = inr lesson
              /\ lesson_of_response response w2 = (JS.Normal lesson, w2)).
    { destruct parsed; auto. congruence. }
    destruct Hok as (lesson & Hlesson & Hok).
    rewrite (lesson_of_parsed_value parsed Hnn) in Hlesson.
    inversion Hlesson; subst lesson; clear Hlesson.
    eexists _, w2. split; [exact Hok|].
    cbn [Types.title Types.introduction Types.vocabulary Types.story
         Types.quiz].
    repeat match goal with |- _ /\ _ => split end;
      try apply array_or_empty_spec; try apply or_default_spec.
    intros key field Hin Hkey.
    repeat (apply elem_of_cons in Hin as [Hin|Hin];
            [inversion Hin; subst; now apply or_default_string|]).
    now apply elem_of_nil in Hin.
Qed.

End LessonProofs.

Lemma generateLesson_outcome_witness :
  exists lesson w',
    generateLesson (JS.lit "Animals") (init Sample.numeric)
    = (JS.Normal lesson, w')
    /\ Types.title lesson = JS.JNumber 5%float
    /\ Types.vocabulary lesson = []
    /\ Types.story lesson = JS.JString (JS.lit "Let's learn together!").
Proof.
  assert (Hai : getAiClient (init Sample.numeric)
                = (JS.Normal 0,
                   record_call (NewGoogleGenAI (Some (JS.lit "key")))
                     returned Sample.numeric (init Sample.numeric)))
    by reflexivity.
  destruct (generateLesson_outcome (JS.lit "Animals")
              (init Sample.numeric) 0 _
              {| text := Some Sample.title_5; candidates := None |}
              Sample.numeric Hai eq_refl) as [_ Hok].
  destruct (Hok Sample.title_5
              (JS.JObject [(JS.lit "title", JS.JNumber 5%float)])
              eq_refl ltac:(discriminate) eq_refl ltac:(discriminate))
    as (lesson & w' & Hrun & _ & Hvoc & _ & _ & Htitle & _ & _ & _ & _
        & Hstory & _).
  exists lesson, w'. split; [exact Hrun|].
  split; [|split].
  - specialize (Htitle eq_refl). now inversion Htitle.
  - now apply Hvoc.
  - now apply Hstory.
Defined.

(** The stronger reading of C10 fails twice: the text [null] parses as JSON and
    [generateLesson] throws; the text [{"title":5}] parses as JSON and the
    title of the lesson is the number 5, not a string. *)
Lemma generateLesson_null_and_number :
  (host_JSON_parse (JS.lit "null") = Some JS.JNull
   /\ (generateLesson (JS.lit "Animals") (init Sample.fresh)).1
      = JS.Abrupt (JS.Error (JS.lit "Invalid lesson format received")))
  /\ (host_JSON_parse Sample.title_5
      = Some (JS.JObject [(JS.lit "title", JS.JNumber 5%float)])
      /\ Types.title
           <$> (match (generateLesson (JS.lit "Animals")
                         (init Sample.numeric)).1 with
                | JS.Normal lesson => Some lesson
                | _ => None
                end)
         = Some (JS.JNumber 5%float)
      /\ ~ Types.is_nonempty_string (JS.JNumber 5%float)).
Proof.
  repeat match goal with |- _ /\ _ => split end; try reflexivity.
  intros (s & Hs & _). discriminate.
Qed.

(** * The chat history *)

Import App.

Section ChatProofs.
Context {H : Type} `{!Host H}.

Lemma chatHistory_apply_updates (us : list update) (s : AppState) :
  (forall updater, SetChatHistory updater ∈ us ->
     exists m, forall prev, updater prev = prev ++ [m]) ->
  chatHistory s `prefix_of` chatHistory (apply_updates us s).
Proof.
  revert s. induction us as [|u us IH]; intros s Hall.
  - reflexivity.
  - cbn [apply_updates fold_left].
    transitivity (chatHistory (apply_update u s)).
    + destruct u as [| | |updater|]; try reflexivity.
      destruct (Hall updater) as [m Hm]; [left|].
      cbn. rewrite Hm. now apply prefix_app_r.
    + apply IH. intros updater Hin. apply Hall. now right.
Qed.

(** C8: every [setChatHistory] that [handleSendMessage] performs is given an
    updater that maps any history to that history followed by one new
    message, so earlier messages and their order are kept whatever else
    happened in between. A blank input performs no update; otherwise the
    user's message is appended first and, once the service call settles,
    the reply of the model or the fallback message. *)
Theorem handleSendMessage_appends (render : AppState) (a : AppWorld H) :
  exists new,
    updates (handleSendMessage render a).2 = updates a ++ new
    /\ (forall updater, SetChatHistory updater ∈ new ->
          exists m, forall prev, updater prev = prev ++ [m])
    /\ (forall s, chatHistory s `prefix_of` chatHistory (apply_updates new s))
    /\ new
       = if JS.truthy_string (JS.trim (inputMessage render)) then
           SetChatHistory (append_message (user_message render))
           :: SetInputMessage [] :: SetLoading true
           :: match (sendChatMessage (apiHistory render)
                       (inputMessage render) (services a)).1 with
              | JS.Normal t =>
                  [SetChatHistory (append_message (model_message t));
                   SetLoading false]
              | JS.Abrupt _ =>
                  [SetChatHistory
                     (append_message (model_message fallback_text));
                   SetLoading false]
              | JS.Pending => []
              end
         else [].
Proof.
  assert (Hshape : exists new,
    updates (handleSendMessage render a).2 = updates a ++ new
    /\ new
       = if JS.truthy_string (JS.trim (inputMessage render)) then
           SetChatHistory (append_message (user_message render))
           :: SetInputMessage [] :: SetLoading true
           :: match (sendChatMessage (apiHistory render)
                       (inputMessage render) (services a)).1 with
              | JS.Normal t =>
                  [SetChatHistory (append_message (model_message t));
                   SetLoading false]
              | JS.Abrupt _ =>
                  [SetChatHistory
                     (append_message (model_message fallback_text));
                   SetLoading false]
              | JS.Pending => []
              end
         else []).
  { unfold handleSendMessage.
    destruct (JS.truthy_string (JS.trim (inputMessage render))); cbn [negb].
    2: { exists []. cbn. now rewrite app_nil_r. }
    unfold_M. unfold dispatch at 1 2 3. cbn [fst snd updates services].
    unfold JS.try_catch_finally, JS.try_catch, in_services, dispatch.
    cbn [fst snd updates services Types.text user_message].
    destruct (sendChatMessage _ _ (services a)) as [[t|e|] w'];
      cbn [fst snd updates services].
    - eexists. split; [assoc_right; reflexivity | reflexivity].
    - unfold console_error, host_call. cbn [fst snd updates services].
      eexists. split; [assoc_right; reflexivity | reflexivity].
    - eexists. split; [assoc_right; reflexivity | reflexivity]. }
  destruct Hshape as (new & Hnew & Hshape). exists new.
  assert (Hupd : forall updater, SetChatHistory updater ∈ new ->
            exists m, forall prev, updater prev = prev ++ [m]).
  { intros updater Hin. rewrite Hshape in Hin.
    destruct (JS.truthy_string (JS.trim (inputMessage render)));
      [|now apply elem_of_nil in Hin].
    apply elem_of_cons in Hin as [Hin|Hin].
    { inversion Hin. now exists (user_message render). }
    apply elem_of_cons in Hin as [Hin|Hin]; [discriminate|].
    apply elem_of_cons in Hin as [Hin|Hin]; [discriminate|].
    destruct (sendChatMessage _ _ (services a)).1 as [t|e|].
    - apply elem_of_cons in Hin as [Hin|Hin].
      { inversion Hin. now exists (model_message t). }
      apply list_elem_of_singleton in Hin. discriminate.
    - apply elem_of_cons in Hin as [Hin|Hin].
      { inversion Hin. now exists (model_message fallback_text). }
      apply list_elem_of_singleton in Hin. discriminate.
    - now apply elem_of_nil in Hin. }
  split; [exact Hnew|]. split; [exact Hupd|].
  split; [|exact Hshape].
  intros s. now apply chatHistory_apply_updates.
Qed.

End ChatProofs.

Example handleSendMessage_hello :
  let render := {| view := Types.CHAT; loading := false; currentLesson := None;
                   chatHistory := [model_message (JS.lit "Hello!")];
                   inputMessage := JS.lit " Hi " |} in
  chatHistory
    (apply_updates
       (updates (handleSendMessage render
                   {| updates := []; services := init Sample.clicked |}).2)
       render)
  = [model_message (JS.lit "Hello!");
     {| Types.role := Types.user; Types.text := JS.lit " Hi ";
        Types.isAudio := None |};
     model_message (JS.lit "Hi!")].
Proof. reflexivity. Qed.

Example handleSendMessage_blank :
  let render := {| view := Types.CHAT; loading := false; currentLesson := None;
                   chatHistory := [];
                   inputMessage := [12288%N; 32%N; 10%N] |} in
  updates (handleSendMessage render
             {| updates := []; services := init Sample.clicked |}).2
  = [].
Proof. reflexivity. Qed.

Example handleSendMessage_offline :
  let render := {| view := Types.CHAT; loading := true; currentLesson := None;
                   chatHistory := [];
                   inputMessage := JS.lit "Hi" |} in
  chatHistory
    (apply_updates
       (updates (handleSendMessage render
                   {| updates := []; services := init Sample.numeric |}).2)
       render)
  = [{| Types.role := Types.user; Types.text := JS.lit "Hi";
        Types.isAudio := None |};
     model_message fallback_text].
Proof. reflexivity. Qed.

(** * More of the service module *)

Import Trace.

Section EmitsProofs.
Context {H : Type} `{!Host H}.

Implicit Types (w : World H) (new : list event) (Q : event -> Prop).

Lemma emits_ret {A} Q (a : A) : emits (H := H) Q (mret a).
Proof.
  intros w. exists []. cbn. rewrite app_nil_r. split; [reflexivity|].
  constructor.
Qed.

Lemma emits_throw {A} Q (e : JS.exn) :
  emits (H := H) (A := A) Q (JS.throw e).
Proof.
  intros w. exists []. cbn. rewrite app_nil_r. split; [reflexivity|].
  constructor.
Qed.

Lemma emits_host_call {A} Q (c : call) (op : H -> JS.outcome A * H) :
  (forall k, Q (Ev c k)) -> emits Q (host_call c op).
Proof.
  intros Hq w. unfold host_call. destruct (op (host w)) as [o h].
  exists [Ev c (completion_of o)]. split; [reflexivity|].
  constructor; [apply Hq | constructor].
Qed.

Lemma emits_bind {A B} Q (m : M (World H) A) (k : A -> M (World H) B) :
  emits Q m -> (forall a, emits Q (k a)) -> emits Q (m ≫= k).
Proof.
  intros Hm Hk w. unfold_M. destruct (Hm w) as (new1 & Hc1 & Hq1).
  destruct (m w) as [[a|e|] w1]; cbn [fst snd] in *; eauto.
  destruct (Hk a w1) as (new2 & Hc2 & Hq2).
  exists (new1 ++ new2). rewrite Hc2, Hc1, app_assoc.
  split; [reflexivity | now apply Forall_app].
Qed.

Lemma emits_try_catch {A} Q (body : M (World H) A)
    (handler : JS.exn -> M (World H) A) :
  emits Q body -> (forall e, emits Q (handler e)) ->
  emits Q (JS.try_catch body handler).
Proof.
  intros Hb Hh w. unfold JS.try_catch. destruct (Hb w) as (new1 & Hc1 & Hq1).
  destruct (body w) as [[a|e|] w1]; cbn [fst snd] in *; eauto.
  destruct (Hh e w1) as (new2 & Hc2 & Hq2).
  exists (new1 ++ new2). rewrite Hc2, Hc1, app_assoc.
  split; [reflexivity | now apply Forall_app].
Qed.


Lemma emits_console_error Q (args : list logarg) :
  Q (Ev (ConsoleError args) returned) ->
  emits (H := H) Q (console_error args).
Proof.
  intros Hq w. exists [Ev (ConsoleError args) returned].
  split; [reflexivity|]. now constructor.
Qed.

Lemma emits_getAiClient Q :
  (truthy_key env_API_KEY = false ->
   Q (Ev (ConsoleError [LString (JS.lit "API_KEY is missing")]) returned)) ->
  (forall k, Q (Ev (NewGoogleGenAI env_API_KEY) k)) ->
  emits (H := H) Q getAiClient.
Proof.
  intros Hn Hc. unfold getAiClient. apply emits_bind.
  - destruct (truthy_key env_API_KEY) eqn:E; [apply emits_ret|].
    apply emits_console_error. now apply Hn.
  - intros _. now apply emits_host_call.
Qed.

Lemma emits_checked Q (r : ctxref) w :
  (forall st, Q (Ev (GetState r st) returned)) ->
  Q (Ev (Resume r) returned) ->
  exists new, calls (checked r w) = calls w ++ new /\ Forall Q new.
Proof.
  intros Hs Hr. unfold checked. destruct (host_state r (host w)) eqn:E.
  - exists [Ev (GetState r suspended) returned; Ev (Resume r) returned].
    cbn. rewrite <- app_assoc. split; [reflexivity|].
    repeat constructor; auto.
  - exists [Ev (GetState r running) returned]. cbn.
    split; [reflexivity|]. repeat constructor; auto.
  - exists [Ev (GetState r closed) returned]. cbn.
    split; [reflexivity|]. repeat constructor; auto.
Qed.

Lemma emits_getAudioContext Q :
  (forall made k, Q (Ev (NewAudioContext 24000 made) k)) ->
  (forall r st, Q (Ev (GetState r st) returned)) ->
  (forall r, Q (Ev (Resume r) returned)) ->
  emits (H := H) Q getAudioContext.
Proof.
  intros Hn Hs Hr w. destruct (audioContext w) as [r|] eqn:Ha.
  - rewrite (getAudioContext_existing w r Ha). cbn [snd].
    now apply emits_checked.
  - pose proof (getAudioContext_fresh w Ha) as Hf.
    destruct (host_new_AudioContext 24000 (host w)) as [[r|e|] h];
      rewrite Hf; cbn [snd].
    + destruct (emits_checked Q r
                  {| audioContext := Some r;
                     calls := calls w
                       ++ [Ev (NewAudioContext 24000 (Some r)) returned];
                     host := h |}) as (new & Hc & Hq); auto.
      exists (Ev (NewAudioContext 24000 (Some r)) returned :: new).
      rewrite Hc. cbn [calls]. rewrite <- app_assoc.
      split; [reflexivity|]. constructor; auto.
    + eexists [_]. split; [reflexivity|]. repeat constructor; auto.
    + eexists [_]. split; [reflexivity|]. repeat constructor; auto.
Qed.

Lemma emits_in new w Q {A} (m : M (World H) A) ev :
  emits Q m -> calls (m w).2 = calls w ++ new -> ev ∈ new -> Q ev.
Proof.
  intros Hm Hc Hin. destruct (Hm w) as (new' & Hc' & Hq).
  rewrite Hc in Hc'. apply app_inv_head in Hc'. subst new'.
  rewrite Forall_forall in Hq. auto.
Qed.

(** ** The client *)

Lemma getAiClient_calls w :
  (getAiClient w).1 = (host_new_GoogleGenAI env_API_KEY (host w)).1
  /\ host (getAiClient w).2 = (host_new_GoogleGenAI env_API_KEY (host w)).2
  /\ audioContext (getAiClient w).2 = audioContext w
  /\ calls (getAiClient w).2
     = calls w ++ key_notice
       ++ [Ev (NewGoogleGenAI env_API_KEY)
             (completion_of (getAiClient w).1)].
Proof.
  unfold getAiClient, key_notice. unfold_M.
  destruct (truthy_key env_API_KEY); cbn [fst snd];
    unfold console_error, host_call; cbn [fst snd host record_call];
    destruct (host_new_GoogleGenAI env_API_KEY (host w)) as [o h];
    cbn; repeat split; rewrite <- ?app_assoc; reflexivity.
Qed.

Lemma client_first {A} (k : client -> M (World H) A) w :
  (forall ai, emits no_client (k ai)) ->
  starts_with_client w ((getAiClient ≫= k) w).2.
Proof.
  intros Hk. destruct (getAiClient_calls w) as (_ & _ & _ & Hc).
  unfold starts_with_client. unfold_M.
  destruct (getAiClient w) as [[ai|e|] w1]; cbn [fst snd] in *.
  - destruct (Hk ai w1) as (new & Hn & Hq). exists new.
    rewrite Hn, Hc. split; [assoc_right; reflexivity | exact Hq].
  - exists []. split; [now rewrite Hc | constructor].
  - exists []. split; [now rewrite Hc | constructor].
Qed.

Lemma playTextToSpeech_body_speak (text : JS.jsstring) :
  playTextToSpeech_body (H := H) text
  = (getAiClient ≫= fun ai => getAudioContext ≫= fun ctx => speak text ai ctx).
Proof. reflexivity. Qed.

Lemma emits_play Q (frame : AudioUtils.AudioFrame) (ctx : ctxref) :
  (forall st k, Q (Ev (PlayAudioBuffer frame ctx st) k)) ->
  emits (H := H) Q (play frame ctx).
Proof.
  intros Hq w. unfold play.
  apply (emits_host_call Q
           (PlayAudioBuffer frame ctx (host_state ctx (host w)))
           (audioUtils_playAudioBuffer frame ctx)).
  intros k. apply Hq.
Qed.

Lemma emits_speak Q (text : JS.jsstring) (ai : client) (ctx : ctxref) :
  (forall k, Q (Ev (GenerateContent (speech_params text)) k)) ->
  (forall s k, Q (Ev (Decode s) k)) ->
  (forall bytes k, Q (Ev (DecodeAudioData bytes ctx 24000 1) k)) ->
  (forall frame st k, Q (Ev (PlayAudioBuffer frame ctx st) k)) ->
  emits (H := H) Q (speak text ai ctx).
Proof.
  intros Hg Hd Ha Hp. unfold speak.
  apply emits_bind; [now apply emits_host_call|]. intros response.
  destruct (inline_audio response) as [base64Audio|]; [|apply emits_ret].
  destruct (JS.truthy_string base64Audio); [|apply emits_ret].
  apply emits_bind; [now apply emits_host_call|]. intros bytes.
  apply emits_bind; [now apply emits_host_call|]. intros buffer.
  now apply emits_play.
Qed.

Lemma inert_speak (text : JS.jsstring) (ai : client) (ctx : ctxref) :
  inert (H := H) (speak text ai ctx).
Proof.
  unfold speak.
  apply inert_bind; [now apply inert_host_call|]. intros response.
  destruct (inline_audio response) as [base64Audio|]; [|apply inert_ret].
  destruct (JS.truthy_string base64Audio); [|apply inert_ret].
  apply inert_bind; [now apply inert_host_call|]. intros bytes.
  apply inert_bind; [now apply inert_host_call|]. intros buffer.
  apply inert_play.
Qed.

(** X1: each of the three exported functions starts by constructing a
    [GoogleGenAI] client with [process.env.API_KEY], and constructs no
    other. A missing or empty key is reported with [console.error] first
    and is not fatal: the constructor is called all the same, and the
    outcome of [getAiClient] is the outcome of the constructor. *)
Theorem one_client_per_call w :
  (getAiClient w).1 = (host_new_GoogleGenAI env_API_KEY (host w)).1
  /\ (forall topic, starts_with_client w (generateLesson topic w).2)
  /\ (forall text, starts_with_client w (playTextToSpeech text w).2)
  /\ (forall history message,
        starts_with_client w (sendChatMessage history message w).2).
Proof.
  split; [apply getAiClient_calls|]. split; [|split].
  - intros topic. unfold generateLesson. apply client_first. intros ai.
    apply emits_bind; [now apply emits_host_call|]. intros response.
    unfold lesson_of_response.
    destruct (text response) as [t|]; [|apply emits_throw].
    destruct (JS.truthy_string t); [|apply emits_throw].
    apply emits_try_catch.
    + intros w0. exists []. unfold parse_lesson.
      destruct (host_JSON_parse t) as [parsed|];
        [destruct (lesson_of_parsed parsed)|]; cbn;
        rewrite app_nil_r; split; auto; constructor.
    + intros e. apply emits_bind; [now apply emits_console_error|].
      intros _. apply emits_throw.
  - intros text. unfold playTextToSpeech, JS.try_catch.
    rewrite playTextToSpeech_body_speak.
    destruct (client_first
                (fun ai => getAudioContext ≫= fun ctx => speak text ai ctx) w)
      as (rest & Hc & Hq).
    { intros ai. apply emits_bind; [now apply emits_getAudioContext|].
      intros ctx. now apply emits_speak. }
    destruct ((getAiClient ≫= _) w) as [[[]|e|] w1]; cbn [fst snd] in *;
      try (exists rest; split; [exact Hc | exact Hq]).
    eexists (rest ++ [_]).
    unfold console_error, host_call. cbn [fst snd record_call calls].
    rewrite Hc. split; [assoc_right; reflexivity|].
    apply Forall_app. split; [exact Hq | now repeat constructor].
  - intros history message. unfold sendChatMessage. apply client_first.
    intros ai.
    apply emits_bind; [now apply emits_host_call|]. intros chat.
    apply emits_bind; [now apply emits_host_call|]. intros result.
    apply emits_ret.
Qed.

(** ** Chat *)

Lemma well_traced_sendChatMessage (history : list HistoryItem)
    (message : JS.jsstring) :
  well_traced (H := H) (sendChatMessage history message).
Proof.
  unfold sendChatMessage.
  apply well_traced_bind; [apply well_traced_getAiClient|]. intros ai.
  apply well_traced_bind; [apply well_traced_host_call|]. intros chat.
  apply well_traced_bind; [apply well_traced_host_call|]. intros result.
  apply well_traced_ret.
Qed.

Lemma emits_sendChatMessage (history : list HistoryItem)
    (message : JS.jsstring) :
  emits (H := H) (chat_call history message)
    (sendChatMessage history message).
Proof.
  unfold sendChatMessage.
  apply emits_bind.
  { apply emits_getAiClient; [|reflexivity]. intros E. now split. }
  intros ai.
  apply emits_bind; [now apply emits_host_call|]. intros chat.
  apply emits_bind; [now apply emits_host_call|]. intros result.
  apply emits_ret.
Qed.

Lemma reply_text_nonempty (result : GenerateContentResponse) :
  reply_text result <> [].
Proof.
  unfold reply_text. destruct (text result) as [[|c t]|]; discriminate.
Qed.

(** X2: when [sendChatMessage] resolves, its value is never the empty
    string: it is the text of the model's reply when that is a non-empty
    string and the sentence "Sorry, I didn't catch that." when the reply has
    no text or an empty one. *)
Theorem sendChatMessage_never_empty (history : list HistoryItem)
    (message t : JS.jsstring) w w' :
  sendChatMessage history message w = (JS.Normal t, w') ->
  t <> []
  /\ exists ai w1 chat h2 result h3,
       getAiClient w = (JS.Normal ai, w1)
       /\ host_chats_create ai chat_model history systemInstruction (host w1)
          = (JS.Normal chat, h2)
       /\ host_sendMessage chat message h2 = (JS.Normal result, h3)
       /\ host w' = h3
       /\ t = reply_text result
       /\ (forall s, text result = Some s -> s <> [] -> t = s)
       /\ (text result = None \/ text result = Some [] ->
           t = JS.lit "Sorry, I didn't catch that.").
Proof.
  unfold sendChatMessage. unfold_M. intros Hrun.
  destruct (getAiClient w) as [[ai|e|] w1]; try discriminate.
  unfold host_call in Hrun at 1.
  destruct (host_chats_create ai chat_model history systemInstruction
              (host w1)) as [[chat|e|] h2] eqn:Ecreate; try discriminate.
  unfold host_call in Hrun. cbn [fst snd host record_call] in Hrun.
  destruct (host_sendMessage chat message h2) as [[result|e|] h3] eqn:Esend;
    try discriminate.
  inversion Hrun; subst; clear Hrun.
  assert (Ht : match text result with
               | Some t => if JS.truthy_string t then t
                           else JS.lit "Sorry, I didn't catch that."
               | None => JS.lit "Sorry, I didn't catch that."
               end = reply_text result).
  { unfold reply_text. now destruct (text result) as [[|c t]|]. }
  rewrite Ht. split; [apply reply_text_nonempty|].
  exists ai, w1, chat, h2, result, h3.
  repeat split; auto.
  - intros s Hs Hne. unfold reply_text. rewrite Hs. now destruct s.
  - intros [Hn|Hn]; unfold reply_text; now rewrite Hn.
Qed.

(** X3: [sendChatMessage] forwards failures and hides nothing: it is
    rejected with [e] exactly when the last call it made (the client
    constructor, [chats.create] or [sendMessage]) threw [e], every call
    before that having returned. It creates the chat with the model
    "gemini-2.5-flash", the history it was given and the system instruction,
    sends the message it was given, and calls nothing else: nothing is
    logged but the notice about a missing key. *)
Theorem sendChatMessage_forwards (history : list HistoryItem)
    (message : JS.jsstring) w :
  exists new,
    calls (sendChatMessage history message w).2 = calls w ++ new
    /\ Forall (chat_call history message) new
    /\ audioContext (sendChatMessage history message w).2 = audioContext w
    /\ match (sendChatMessage history message w).1 with
       | JS.Normal _ => all_returned new
       | JS.Abrupt e =>
           exists pre c, new = pre ++ [Ev c (threw e)] /\ all_returned pre
       | JS.Pending =>
           exists pre c, new = pre ++ [Ev c hung] /\ all_returned pre
       end.
Proof.
  destruct (well_traced_sendChatMessage history message w)
    as (new & Hc & Hend).
  destruct (emits_sendChatMessage history message w) as (new' & Hc' & Hq).
  assert (new' = new) as ->.
  { rewrite Hc in Hc'. now apply app_inv_head in Hc'. }
  exists new. split; [exact Hc|]. split; [exact Hq|].
  split; [apply inert_sendChatMessage | exact Hend].
Qed.

(** ** Lessons *)

Lemma generateLesson_fetch (topic : JS.jsstring) w :
  generateLesson topic w
  = match fetch_lesson topic w with
    | (JS.Normal response, w1) => lesson_of_response response w1
    | (JS.Abrupt e, w1) => (JS.Abrupt e, w1)
    | (JS.Pending, w1) => (JS.Pending, w1)
    end.
Proof.
  unfold generateLesson, fetch_lesson. unfold_M.
  destruct (getAiClient w) as [[ai|e|] w1]; reflexivity.
Qed.

(** X4: what [generateLesson] asks of the host, and how it can fail. After
    the notice about a missing key, if any, it constructs the client and
    sends exactly one request, with the model "gemini-2.5-flash" and the
    prompt of the topic, and calls nothing else when it succeeds. A failure
    of the constructor or of the request is forwarded unchanged and not
    logged. Otherwise it is rejected with exactly one of two errors:
    "Failed to generate lesson content" when [response.text] is missing or
    empty, without any log; or "Invalid lesson format received", right after
    one [console.error] that carries [response.text] itself and the cause,
    the [SyntaxError] of [JSON.parse] on that text or the [TypeError] of
    reading a property of the [null] it parsed to. *)
Theorem generateLesson_failures (topic : JS.jsstring) w :
  exists new,
    calls (generateLesson topic w).2 = calls w ++ key_notice ++ new
    /\ audioContext (generateLesson topic w).2 = audioContext w
    /\ match (generateLesson topic w).1 with
       | JS.Normal _ => new = lesson_request topic returned
       | JS.Abrupt e =>
           new = [Ev (NewGoogleGenAI env_API_KEY) (threw e)]
           \/ new = lesson_request topic (threw e)
           \/ exists ai w1 response h,
                getAiClient w = (JS.Normal ai, w1)
                /\ host_generateContent ai (lesson_params topic) (host w1)
                   = (JS.Normal response, h)
                /\ host (generateLesson topic w).2 = h
                /\ ((e = failed_to_generate
                     /\ (text response = None \/ text response = Some [])
                     /\ new = lesson_request topic returned)
                    \/ exists t cause,
                         e = invalid_format
                         /\ text response = Some t
                         /\ t <> []
                         /\ new = lesson_request topic returned
                                  ++ [parse_failure t cause]
                         /\ (host_JSON_parse t = None
                               /\ cause = JS.SyntaxError
                             \/ host_JSON_parse t = Some JS.JNull
                                /\ cause = JS.TypeError))
       | JS.Pending =>
           new = [Ev (NewGoogleGenAI env_API_KEY) hung]
           \/ new = lesson_request topic hung
       end.
Proof.
  destruct (inert_generateLesson topic w) as [Hvar _]. revert Hvar.
  destruct (getAiClient_calls w) as (_ & _ & _ & Hc).
  rewrite generateLesson_fetch. unfold fetch_lesson, host_call. unfold_M.
  destruct (getAiClient w) as [[ai|e|] w1];
    cbn [fst snd completion_of] in *.
  - destruct (host_generateContent ai (lesson_params topic) (host w1))
      as [[response|e|] h] eqn:Egc; cbn [fst snd completion_of].
    + set (w2 := record_call _ returned h w1).
      assert (Hc2 : calls w2
                    = calls w ++ key_notice
                      ++ lesson_request topic returned).
      { cbn [w2 record_call calls]. rewrite Hc. now assoc_right. }
      pose proof (lesson_of_response_cases response w2) as Hcases.
      destruct (text response) as [[|c t]|] eqn:Et.
      * rewrite Hcases. cbn [fst snd]. intros Hvar.
        exists (lesson_request topic returned).
        split; [exact Hc2|]. split; [exact Hvar|].
        right. right. exists ai, w1, response, h.
        split; [reflexivity|]. split; [exact Egc|].
        split; [reflexivity|]. left. auto.
      * destruct (host_JSON_parse (c :: t)) as [parsed|] eqn:Ep.
        -- assert (Hparsed :
             parsed = JS.JNull
             \/ exists lesson, lesson_of_response response w2
                               = (JS.Normal lesson, w2)).
           { destruct parsed; auto; right;
               destruct Hcases as (lesson & _ & Hok); eauto. }
           destruct Hparsed as [->|(lesson & Hok)].
           ++ rewrite Hcases. cbn [fst snd record_call calls host].
              intros Hvar.
              exists (lesson_request topic returned
                      ++ [parse_failure (c :: t) JS.TypeError]).
              rewrite Hc2. split; [now assoc_right|].
              split; [exact Hvar|].
              right. right. exists ai, w1, response, h.
              split; [reflexivity|]. split; [exact Egc|].
              split; [reflexivity|]. right.
              exists (c :: t), JS.TypeError. repeat split; auto.
           ++ rewrite Hok. cbn [fst snd]. intros Hvar.
              exists (lesson_request topic returned). auto.
        -- rewrite Hcases. cbn [fst snd record_call calls host].
           intros Hvar.
           exists (lesson_request topic returned
                   ++ [parse_failure (c :: t) JS.SyntaxError]).
           rewrite Hc2. split; [now assoc_right|].
           split; [exact Hvar|].
           right. right. exists ai, w1, response, h.
           split; [reflexivity|]. split; [exact Egc|].
           split; [reflexivity|]. right.
           exists (c :: t), JS.SyntaxError. repeat split; auto.
      * rewrite Hcases. cbn [fst snd]. intros Hvar.
        exists (lesson_request topic returned).
        split; [exact Hc2|]. split; [exact Hvar|].
        right. right. exists ai, w1, response, h.
        split; [reflexivity|]. split; [exact Egc|].
        split; [reflexivity|]. left. auto.
    + cbn [record_call calls]. intros Hvar.
      exists (lesson_request topic (threw e)).
      rewrite Hc. split; [now assoc_right|]. auto.
    + cbn [record_call calls]. intros Hvar.
      exists (lesson_request topic hung).
      rewrite Hc. split; [now assoc_right|]. auto.
  - intros Hvar. eexists. split; [exact Hc|]. auto.
  - intros Hvar. eexists. split; [exact Hc|]. auto.
Qed.

(** ** The audio context, again *)

(** X5: when the [AudioContext] constructor throws, [getAudioContext]
    throws the same error and leaves the module variable empty: it reads no
    state and requests no resume, and nothing counts as constructed. The
    next call therefore calls the constructor again, and if that succeeds
    the context it makes becomes the singleton. *)
Theorem getAudioContext_retry w (e : JS.exn) (h : H) (r : ctxref) (h' : H) :
  audioContext w = None ->
  host_new_AudioContext 24000 (host w) = (JS.Abrupt e, h) ->
  host_new_AudioContext 24000 h = (JS.Normal r, h') ->
  (getAudioContext w).1 = JS.Abrupt e
  /\ audioContext (getAudioContext w).2 = None
  /\ host (getAudioContext w).2 = h
  /\ calls (getAudioContext w).2
     = calls w ++ [Ev (NewAudioContext 24000 None) (threw e)]
  /\ constructed (calls (getAudioContext w).2) = constructed (calls w)
  /\ (getAudioContext (getAudioContext w).2).1 = JS.Normal r
  /\ audioContext (getAudioContext (getAudioContext w).2).2 = Some r
  /\ constructed (calls (getAudioContext (getAudioContext w).2).2)
     = constructed (calls w) ++ [(r, 24000%Z)].
Proof.
  intros Hnone Hfail Hok.
  pose proof (getAudioContext_fresh w Hnone) as Hf. rewrite Hfail in Hf.
  rewrite Hf. cbn [fst snd record_call audioContext host calls].
  repeat split; auto.
  { now apply constructed_snoc_other. }
  all: set (w1 := record_call (NewAudioContext 24000 None) (threw e) h w);
    pose proof (getAudioContext_fresh w1 Hnone) as Hf1;
    cbn [w1 record_call host] in Hf1; rewrite Hok in Hf1;
    fold w1 in Hf1; rewrite Hf1; cbn [fst snd].
  - reflexivity.
  - now destruct (checked_fields r
                    {| audioContext := Some r;
                       calls := calls w1
                         ++ [Ev (NewAudioContext 24000 (Some r)) returned];
                       host := h' |}) as [-> _].
  - destruct (checked_fields r
                {| audioContext := Some r;
                   calls := calls w1
                     ++ [Ev (NewAudioContext 24000 (Some r)) returned];
                   host := h' |}) as [_ ->].
    cbn [calls w1 record_call].
    rewrite constructed_snoc, constructed_snoc_other by reflexivity.
    reflexivity.
Qed.

(** ** Speech *)

Lemma playTextToSpeech_stages (text : JS.jsstring) w (ai : client) w1
    (r : ctxref) w2 :
  getAiClient w = (JS.Normal ai, w1) ->
  getAudioContext w1 = (JS.Normal r, w2) ->
  playTextToSpeech text w
  = JS.try_catch (speak text ai r)
      (fun error =>
         console_error [LString (JS.lit "TTS Error:"); LExn error]) w2.
Proof.
  intros Hai Hctx. unfold playTextToSpeech, JS.try_catch.
  rewrite playTextToSpeech_body_speak. unfold_M.
  now rewrite Hai, Hctx.
Qed.

Lemma inline_audio_first (response : GenerateContentResponse)
    (c : Candidate) (cs : list Candidate) (ct : Content) (p : Part)
    (ps : list Part) :
  candidates response = Some (c :: cs) ->
  content c = Some ct ->
  parts ct = Some (p :: ps) ->
  inline_audio response = inlineData p ≫= data.
Proof.
  intros Hc Hct Hp. unfold inline_audio. rewrite Hc. cbn.
  rewrite Hct. cbn. rewrite Hp. reflexivity.
Qed.

(** X6: when the first part of the first candidate of the response
    carries no inline data, or empty data, [playTextToSpeech] decodes
    nothing, plays nothing and logs nothing, and its promise is fulfilled:
    the request is the last call it makes. Audio carried by a later part or
    by a later candidate is not looked at. *)
Theorem playTextToSpeech_no_audio (text : JS.jsstring) w (ai : client) w1
    (r : ctxref) w2 (response : GenerateContentResponse) (h : H) :
  getAiClient w = (JS.Normal ai, w1) ->
  getAudioContext w1 = (JS.Normal r, w2) ->
  host_generateContent ai (speech_params text) (host w2)
  = (JS.Normal response, h) ->
  (inline_audio response = None \/ inline_audio response = Some [] ->
   playTextToSpeech text w
   = (JS.Normal tt,
      record_call (GenerateContent (speech_params text)) returned h w2))
  /\ (forall c cs ct p ps,
        candidates response = Some (c :: cs) ->
        content c = Some ct ->
        parts ct = Some (p :: ps) ->
        inlineData p = None
        \/ (exists b, inlineData p = Some b
                      /\ (data b = None \/ data b = Some [])) ->
        playTextToSpeech text w
        = (JS.Normal tt,
           record_call (GenerateContent (speech_params text)) returned h w2)).
Proof.
  intros Hai Hctx Hgen.
  assert (Hsilent :
            inline_audio response = None \/ inline_audio response = Some [] ->
            playTextToSpeech text w
            = (JS.Normal tt,
               record_call (GenerateContent (speech_params text)) returned
                 h w2)).
  { intros Hnone.
    rewrite (playTextToSpeech_stages text w ai w1 r w2 Hai Hctx).
    unfold JS.try_catch, speak. unfold_M. unfold host_call at 1.
    rewrite Hgen. cbn [fst snd completion_of].
    now destruct Hnone as [->| ->]. }
  split; [exact Hsilent|].
  intros c cs ct p ps Hc Hct Hp Hdata. apply Hsilent.
  rewrite (inline_audio_first response c cs ct p ps Hc Hct Hp).
  destruct Hdata as [->|(b & -> & [Hb|Hb])]; cbn; auto.
Qed.

(** X7: [playTextToSpeech] obtains the audio context before it sends the
    request, so the context stays in the module variable whatever happens
    next: a context that was already there is still there afterwards, and
    one that [getAudioContext] has just made is there even if the request,
    the decoding or the playback fails or never settles. *)
Theorem playTextToSpeech_keeps_context (text : JS.jsstring) w :
  (forall r, audioContext w = Some r ->
             audioContext (playTextToSpeech text w).2 = Some r)
  /\ (forall ai w1 r w2,
        getAiClient w = (JS.Normal ai, w1) ->
        getAudioContext w1 = (JS.Normal r, w2) ->
        audioContext (playTextToSpeech text w).2 = Some r).
Proof.
  assert (Hafter : forall ai w1 r w2,
            getAiClient w = (JS.Normal ai, w1) ->
            getAudioContext w1 = (JS.Normal r, w2) ->
            audioContext (playTextToSpeech text w).2 = audioContext w2).
  { intros ai w1 r w2 Hai Hctx.
    rewrite (playTextToSpeech_stages text w ai w1 r w2 Hai Hctx).
    apply inert_try_catch; [apply inert_speak|].
    intros e. apply inert_console_error. }
  assert (Hret : forall w1 r w2,
            getAudioContext w1 = (JS.Normal r, w2) ->
            audioContext w2 = Some r).
  { intros w1 r w2 Hctx. destruct (audioContext w1) as [r0|] eqn:Hr.
    - rewrite (getAudioContext_existing w1 r0 Hr) in Hctx.
      inversion Hctx; subst.
      destruct (checked_fields r w1) as [-> _]. exact Hr.
    - pose proof (getAudioContext_fresh w1 Hr) as Hf.
      destruct (host_new_AudioContext 24000 (host w1)) as [[r0|e|] h];
        rewrite Hf in Hctx; inversion Hctx; subst.
      now destruct (checked_fields r
                      {| audioContext := Some r;
                         calls := calls w1
                           ++ [Ev (NewAudioContext 24000 (Some r)) returned];
                         host := h |}) as [-> _]. }
  split.
  - intros r Hr.
    destruct (getAiClient_calls w) as (_ & _ & Hvar & _).
    unfold playTextToSpeech, JS.try_catch.
    rewrite playTextToSpeech_body_speak. unfold_M.
    destruct (getAiClient w) as [[ai|e|] w1] eqn:Hai; cbn [fst snd] in *;
      [|cbn; congruence ..].
    rewrite <- Hvar in Hr.
    rewrite (getAudioContext_existing w1 r Hr).
    change (audioContext
              (JS.try_catch (speak text ai r)
                 (fun error =>
                    console_error [LString (JS.lit "TTS Error:");
                                   LExn error]) (checked r w1)).2 = Some r).
    destruct (inert_try_catch (speak text ai r)
                (fun error =>
                   console_error [LString (JS.lit "TTS Error:");
                                  LExn error])
                (inert_speak text ai r)
                (fun e => inert_console_error _) (checked r w1)) as [-> _].
    now destruct (checked_fields r w1) as [-> _].
  - intros ai w1 r w2 Hai Hctx.
    rewrite (Hafter ai w1 r w2 Hai Hctx). eauto.
Qed.

(** ** One context for all audio *)













End EmitsProofs.

(** ** Runs of the service in the sample browsers *)

Lemma sendChatMessage_never_empty_witness :
  exists w',
    sendChatMessage [] (JS.lit "Hello") (init Sample.clicked)
    = (JS.Normal (JS.lit "Hi!"), w')
    /\ JS.lit "Hi!" <> [].
Proof.
  eexists. split; [reflexivity|].
  exact (proj1 (sendChatMessage_never_empty [] (JS.lit "Hello") (JS.lit "Hi!")
                  (init Sample.clicked) _ eq_refl)).
Defined.

Lemma getAudioContext_retry_witness :
  (@getAudioContext _ Flaky.device_host (init Flaky.once)).1
  = JS.Abrupt (JS.HostError 1)
  /\ audioContext (@getAudioContext _ Flaky.device_host (init Flaky.once)).2
     = None
  /\ (@getAudioContext _ Flaky.device_host
        (@getAudioContext _ Flaky.device_host (init Flaky.once)).2).1
     = JS.Normal 0.
Proof.
  destruct (@getAudioContext_retry _ Flaky.device_host (init Flaky.once)
              (JS.HostError 1) {| Flaky.failures := 0; Flaky.made := 0 |}
              0 {| Flaky.failures := 0; Flaky.made := 1 |}
              eq_refl eq_refl eq_refl)
    as (H1 & H2 & _ & _ & _ & H3 & _).
  auto.
Defined.

Lemma playTextToSpeech_no_audio_witness :
  exists w',
    playTextToSpeech (JS.lit "Hello") (init Sample.numeric)
    = (JS.Normal tt, w')
    /\ played (calls w') = [].
Proof.
  assert (Hai : getAiClient (init Sample.numeric)
                = (JS.Normal 0,
                   record_call (NewGoogleGenAI (Some (JS.lit "key")))
                     returned Sample.numeric (init Sample.numeric)))
    by reflexivity.
  destruct (playTextToSpeech_no_audio (JS.lit "Hello")
              (init Sample.numeric) 0 _ 0 _
              (Sample.response_of_audio None)
              (Sample.with_contexts [running] Sample.numeric)
              Hai eq_refl eq_refl) as [Hsilent _].
  eexists. split; [apply Hsilent; now left | reflexivity].
Defined.


(** * More of the application shell *)

Import Page.

Section PageProofs.
Context {H : Type} `{!Host H}.

(** ** Blank input *)

Lemma trimStart_nil (s : JS.jsstring) :
  JS.trimStart s = [] <-> Forall (fun c => JS.is_whitespace c = true) s.
Proof.
  induction s as [|c s IH]; cbn [JS.trimStart].
  - split; [constructor | reflexivity].
  - destruct (JS.is_whitespace c) eqn:E.
    + rewrite IH. split; [now constructor | now inversion 1].
    + split; [discriminate|]. inversion 1. congruence.
Qed.

Lemma trimStart_suffix (s : JS.jsstring) :
  exists pre, s = pre ++ JS.trimStart s
              /\ Forall (fun c => JS.is_whitespace c = true) pre.
Proof.
  induction s as [|c s (pre & Hs & Hpre)]; cbn [JS.trimStart].
  - exists []. split; [reflexivity | constructor].
  - destruct (JS.is_whitespace c) eqn:E.
    + exists (c :: pre). cbn. split; [now f_equal | now constructor].
    + exists []. split; [reflexivity | constructor].
Qed.

Lemma trim_blank (s : JS.jsstring) :
  JS.truthy_string (JS.trim s) = false
  <-> Forall (fun c => JS.is_whitespace c = true) s.
Proof.
  unfold JS.trim.
  assert (Hnil : forall l : JS.jsstring,
            JS.truthy_string l = false <-> l = []).
  { intros [|c l]; cbn; split; congruence. }
  rewrite Hnil. split.
  - intros Hrev.
    assert (Hts : JS.trimStart (rev (JS.trimStart s)) = []).
    { rewrite <- (rev_involutive (JS.trimStart _)), Hrev. reflexivity. }
    apply trimStart_nil in Hts.
    assert (Hall : Forall (fun c => JS.is_whitespace c = true)
                     (JS.trimStart s)).
    { rewrite Forall_forall in *. intros c Hc. apply Hts.
      apply list_elem_of_In, in_rev. rewrite rev_involutive.
      now apply list_elem_of_In. }
    destruct (trimStart_suffix s) as (pre & Hs & Hpre).
    rewrite Hs. now apply Forall_app.
  - intros Hall. apply trimStart_nil in Hall. now rewrite Hall.
Qed.

(** ** What one run of a handler does *)

Lemma handleSendMessage_run (render : AppState) (a : AppWorld H) :
  handleSendMessage render a
  = if JS.truthy_string (JS.trim (inputMessage render)) then
      match sendChatMessage (apiHistory render) (inputMessage render)
              (services a) with
      | (JS.Normal t, w') =>
          (JS.Normal tt,
           {| updates := updates a ++ sent_updates render
                ++ [SetChatHistory (append_message (model_message t));
                    SetLoading false];
              services := w' |})
      | (JS.Abrupt e, w') =>
          (JS.Normal tt,
           {| updates := updates a ++ sent_updates render
                ++ [SetChatHistory
                      (append_message (model_message fallback_text));
                    SetLoading false];
              services := (console_error [LExn e] w').2 |})
      | (JS.Pending, w') =>
          (JS.Pending,
           {| updates := updates a ++ sent_updates render;
              services := w' |})
      end
    else (JS.Normal tt, a).
Proof.
  unfold handleSendMessage.
  destruct (JS.truthy_string (JS.trim (inputMessage render))); cbn [negb];
    [|reflexivity].
  unfold_M. unfold dispatch at 1 2 3. cbn [fst snd updates services].
  unfold JS.try_catch_finally, JS.try_catch, in_services, dispatch.
  cbn [fst snd updates services Types.text user_message].
  destruct (sendChatMessage _ _ (services a)) as [[t|e|] w'];
    cbn [fst snd updates services]; unfold sent_updates.
  - do 2 f_equal. assoc_right. reflexivity.
  - unfold console_error, host_call. cbn [fst snd updates services].
    do 2 f_equal. assoc_right. reflexivity.
  - do 2 f_equal. assoc_right. reflexivity.
Qed.

Lemma handleTopicSelect_run (label : JS.jsstring) (p : PageWorld H) :
  handleTopicSelect label p
  = match generateLesson label (services (app p)) with
    | (JS.Normal lesson, w') =>
        (JS.Normal tt,
         {| alerts := alerts p;
            app := {| updates := updates (app p)
                        ++ [SetLoading true; SetCurrentLesson (Some lesson);
                            SetView Types.LESSON; SetLoading false];
                      services := w' |} |})
    | (JS.Abrupt e, w') =>
        (JS.Normal tt,
         {| alerts := alerts p ++ [load_failed];
            app := {| updates := updates (app p)
                        ++ [SetLoading true; SetLoading false];
                      services := (console_error [LExn e] w').2 |} |})
    | (JS.Pending, w') =>
        (JS.Pending,
         {| alerts := alerts p;
            app := {| updates := updates (app p) ++ [SetLoading true];
                      services := w' |} |})
    end.
Proof.
  unfold handleTopicSelect. unfold_M.
  unfold in_app at 1. unfold dispatch at 1.
  cbn [fst snd alerts app updates services].
  unfold JS.try_catch_finally, JS.try_catch, in_app, in_services, dispatch,
    alert.
  cbn [fst snd alerts app updates services].
  destruct (generateLesson label (services (app p))) as [[lesson|e|] w'];
    cbn [fst snd alerts app updates services].
  - do 3 f_equal. assoc_right. reflexivity.
  - unfold console_error, host_call.
    cbn [fst snd alerts app updates services].
    do 3 f_equal. assoc_right. reflexivity.
  - reflexivity.
Qed.

(** ** The lesson handler *)

(** X9: [handleTopicSelect] never rejects. It sets [loading] first. When
    [generateLesson] succeeds it stores the lesson, then shows the lesson
    view, and shows no alert; when it fails the lesson and the view are left
    alone, the error is logged and exactly one alert is shown. In both
    cases [loading] is reset last; it stays set only when the request never
    settles. The chat history and the input are never touched. *)
Theorem handleTopicSelect_settles (label : JS.jsstring) (p : PageWorld H) :
  exists new,
    updates (app (handleTopicSelect label p).2) = updates (app p) ++ new
    /\ (forall e, (handleTopicSelect label p).1 <> JS.Abrupt e)
    /\ head new = Some (SetLoading true)
    /\ (forall s,
          chatHistory (apply_updates new s) = chatHistory s
          /\ inputMessage (apply_updates new s) = inputMessage s)
    /\ match (generateLesson label (services (app p))).1 with
       | JS.Normal lesson =>
           (handleTopicSelect label p).1 = JS.Normal tt
           /\ alerts (handleTopicSelect label p).2 = alerts p
           /\ services (app (handleTopicSelect label p).2)
              = (generateLesson label (services (app p))).2
           /\ forall s,
                currentLesson (apply_updates new s) = Some lesson
                /\ view (apply_updates new s) = Types.LESSON
                /\ loading (apply_updates new s) = false
       | JS.Abrupt e =>
           (handleTopicSelect label p).1 = JS.Normal tt
           /\ alerts (handleTopicSelect label p).2 = alerts p ++ [load_failed]
           /\ calls (services (app (handleTopicSelect label p).2))
              = calls (generateLesson label (services (app p))).2
                ++ [Ev (ConsoleError [LExn e]) returned]
           /\ forall s,
                currentLesson (apply_updates new s) = currentLesson s
                /\ view (apply_updates new s) = view s
                /\ loading (apply_updates new s) = false
       | JS.Pending =>
           (handleTopicSelect label p).1 = JS.Pending
           /\ alerts (handleTopicSelect label p).2 = alerts p
           /\ forall s,
                currentLesson (apply_updates new s) = currentLesson s
                /\ view (apply_updates new s) = view s
                /\ loading (apply_updates new s) = true
       end.
Proof.
  rewrite handleTopicSelect_run.
  destruct (generateLesson label (services (app p))) as [[lesson|e|] w'];
    cbn [fst snd alerts app updates services];
    eexists; (split; [reflexivity|]);
    repeat split; try discriminate.
Qed.

(** ** The page *)

Lemma apply_updates_app (us vs : list update) (s : AppState) :
  apply_updates (us ++ vs) s = apply_updates vs (apply_updates us s).
Proof. unfold apply_updates. apply fold_left_app. Qed.

Lemma block_effect (b : list update) (s : AppState) :
  block b ->
  chatHistory s `prefix_of` chatHistory (apply_updates b s)
  /\ (currentLesson s <> None -> currentLesson (apply_updates b s) <> None)
  /\ (view (apply_updates b s) = Types.LESSON ->
      currentLesson (apply_updates b s) <> None
      \/ (view s = Types.LESSON
          /\ currentLesson (apply_updates b s) = currentLesson s)).
Proof.
  intros Hb. destruct Hb; cbn; unfold append_message;
    repeat split; auto; try (now apply prefix_app_r);
    try discriminate; try (left; discriminate).
Qed.

Lemma log_blocks (us new : list update) :
  log us -> blocks new -> log (us ++ new).
Proof.
  intros Hus Hnew. revert us Hus.
  induction Hnew as [|b vs Hb _ IH]; intros us Hus.
  - now rewrite app_nil_r.
  - rewrite app_assoc. apply IH. now constructor.
Qed.

Lemma blocks_of_list (bs : list (list update)) :
  Forall block bs -> blocks (concat bs).
Proof.
  induction 1 as [|b bs Hb _ IH]; cbn; [constructor | now constructor].
Qed.

Lemma handleTopicSelect_blocks (label : JS.jsstring) (p : PageWorld H) :
  exists new,
    updates (app (handleTopicSelect label p).2) = updates (app p) ++ new
    /\ blocks new.
Proof.
  rewrite handleTopicSelect_run.
  destruct (generateLesson label (services (app p))) as [[lesson|e|] w'];
    cbn [fst snd alerts app updates services];
    eexists; (split; [reflexivity|]).
  - apply (blocks_of_list
             [[SetLoading true];
              [SetCurrentLesson (Some lesson); SetView Types.LESSON;
               SetLoading false]]).
    repeat constructor.
  - apply (blocks_of_list [[SetLoading true]; [SetLoading false]]).
    repeat constructor.
  - apply (blocks_of_list [[SetLoading true]]). repeat constructor.
Qed.

Lemma handleSendMessage_blocks (render : AppState) (a : AppWorld H) :
  exists new,
    updates (handleSendMessage render a).2 = updates a ++ new
    /\ blocks new.
Proof.
  rewrite handleSendMessage_run.
  destruct (JS.truthy_string (JS.trim (inputMessage render))).
  2: { exists []. cbn. rewrite app_nil_r. split; [reflexivity|constructor]. }
  destruct (sendChatMessage _ _ (services a)) as [[t|e|] w'];
    cbn [fst snd updates]; eexists; (split; [reflexivity|]).
  - apply (blocks_of_list
             [sent_updates render;
              [SetChatHistory (append_message (model_message t));
               SetLoading false]]).
    repeat constructor.
  - apply (blocks_of_list
             [sent_updates render;
              [SetChatHistory (append_message (model_message fallback_text));
               SetLoading false]]).
    repeat constructor.
  - rewrite <- (app_nil_r (sent_updates render)).
    apply (blocks_of_list [sent_updates render]). repeat constructor.
Qed.

(** X10: invariants of the page. The handlers only ever issue the updates
    of [block], each run between two awaits, and React may interleave the
    runs of different handlers in any order. In every state so reached,
    starting from the initial state: the lesson view is shown only when a
    lesson is stored; the greeting of the teacher is still the first
    message of the chat; and a further run never shortens or reorders the
    chat history and never discards a stored lesson. Whole runs of
    [handleTopicSelect] and of [handleSendMessage] stay within these
    states. *)
Theorem page_invariants (us : list update) :
  log us ->
  (view (apply_updates us initialState) = Types.LESSON ->
   currentLesson (apply_updates us initialState) <> None)
  /\ (exists rest,
        chatHistory (apply_updates us initialState)
        = model_message greeting :: rest)
  /\ (forall b, block b ->
        chatHistory (apply_updates us initialState)
          `prefix_of` chatHistory (apply_updates (us ++ b) initialState)
        /\ (currentLesson (apply_updates us initialState) <> None ->
            currentLesson (apply_updates (us ++ b) initialState) <> None))
  /\ (forall label (p : PageWorld H),
        updates (app p) = us ->
        log (updates (app (handleTopicSelect label p).2)))
  /\ (forall render (a : AppWorld H),
        updates a = us -> log (updates (handleSendMessage render a).2)).
Proof.
  intros Hlog.
  assert (Hinv :
    (view (apply_updates us initialState) = Types.LESSON ->
     currentLesson (apply_updates us initialState) <> None)
    /\ [model_message greeting]
         `prefix_of` chatHistory (apply_updates us initialState)).
  { induction Hlog as [|us b Hus [IHv IHc] Hb].
    - split; [discriminate | reflexivity].
    - rewrite apply_updates_app.
      destruct (block_effect b (apply_updates us initialState) Hb)
        as (Hpre & Hkeep & Hview).
      split.
      + intros Hv. destruct (Hview Hv) as [Hl|[Hv' Hl]]; [exact Hl|].
        rewrite Hl. auto.
      + etransitivity; eauto. }
  destruct Hinv as [Hv Hc].
  split; [exact Hv|]. split.
  { destruct Hc as [rest Hc]. exists rest. exact Hc. }
  split.
  { intros b Hb. rewrite apply_updates_app.
    destruct (block_effect b (apply_updates us initialState) Hb)
      as (Hpre & Hkeep & _). auto. }
  split.
  - intros label p <-.
    destruct (handleTopicSelect_blocks label p) as (new & -> & Hnew).
    now apply log_blocks.
  - intros render a <-.
    destruct (handleSendMessage_blocks render a) as (new & -> & Hnew).
    now apply log_blocks.
Qed.

(** ** The chat handler, again *)

(** X11: [handleSendMessage] never rejects. A failure of
    [sendChatMessage] is caught: the error is logged with [console.error],
    and nothing else is logged by the handler. The promise of the handler
    stays pending only when the reply never settles, and then [loading]
    stays set. *)
Theorem handleSendMessage_never_rejects (render : AppState)
    (a : AppWorld H) :
  (forall e, (handleSendMessage render a).1 <> JS.Abrupt e)
  /\ (JS.truthy_string (JS.trim (inputMessage render)) = true ->
      match (sendChatMessage (apiHistory render) (inputMessage render)
               (services a)).1 with
      | JS.Normal _ =>
          (handleSendMessage render a).1 = JS.Normal tt
          /\ services (handleSendMessage render a).2
             = (sendChatMessage (apiHistory render) (inputMessage render)
                  (services a)).2
      | JS.Abrupt e =>
          (handleSendMessage render a).1 = JS.Normal tt
          /\ calls (services (handleSendMessage render a).2)
             = calls (sendChatMessage (apiHistory render)
                        (inputMessage render) (services a)).2
               ++ [Ev (ConsoleError [LExn e]) returned]
      | JS.Pending =>
          (handleSendMessage render a).1 = JS.Pending
          /\ last (updates (handleSendMessage render a).2)
             = Some (SetLoading true)
      end).
Proof.
  rewrite handleSendMessage_run.
  destruct (JS.truthy_string (JS.trim (inputMessage render))).
  2: { split; [discriminate|]. discriminate. }
  destruct (sendChatMessage _ _ (services a)) as [[t|e|] w'];
    cbn [fst snd updates services]; (split; [discriminate|]); intros _;
    split; try reflexivity.
  unfold sent_updates.
  change [SetChatHistory (append_message (user_message render));
          SetInputMessage []; SetLoading true]
    with ([SetChatHistory (append_message (user_message render));
           SetInputMessage []] ++ [SetLoading true]).
  now rewrite app_assoc, last_snoc.
Qed.

(** X12: [handleSendMessage] does nothing at all, no update and no call,
    exactly when every character of the input is white space or a line
    terminator (the empty input included); on any other input it appends
    the message as typed, untrimmed, to the chat history. *)
Theorem handleSendMessage_noop_iff_blank (render : AppState)
    (a : AppWorld H) :
  (Forall (fun c => JS.is_whitespace c = true) (inputMessage render)
   <-> handleSendMessage render a = (JS.Normal tt, a))
  /\ (~ Forall (fun c => JS.is_whitespace c = true) (inputMessage render) ->
      exists rest,
        updates (handleSendMessage render a).2
        = updates a
          ++ SetChatHistory
               (append_message
                  {| Types.role := Types.user;
                     Types.text := inputMessage render;
                     Types.isAudio := None |}) :: rest).
Proof.
  rewrite <- trim_blank. rewrite handleSendMessage_run.
  destruct (JS.truthy_string (JS.trim (inputMessage render))).
  - assert (Hrest : exists rest,
              updates
                (match sendChatMessage (apiHistory render)
                         (inputMessage render) (services a) with
                 | (JS.Normal t, w') =>
                     (JS.Normal tt,
                      {| updates := updates a ++ sent_updates render
                           ++ [SetChatHistory
                                 (append_message (model_message t));
                               SetLoading false];
                         services := w' |})
                 | (JS.Abrupt e, w') =>
                     (JS.Normal tt,
                      {| updates := updates a ++ sent_updates render
                           ++ [SetChatHistory
                                 (append_message
                                    (model_message fallback_text));
                               SetLoading false];
                         services := (console_error [LExn e] w').2 |})
                 | (JS.Pending, w') =>
                     (JS.Pending,
                      {| updates := updates a ++ sent_updates render;
                         services := w' |})
                 end).2
              = updates a
                ++ SetChatHistory (append_message (user_message render))
                   :: rest).
    { destruct (sendChatMessage _ _ (services a)) as [[t|e|] w'];
        cbn [fst snd updates]; eexists; reflexivity. }
    split; [|intros _; exact Hrest].
    split; [discriminate|]. intros Heq. exfalso.
    destruct Hrest as (rest & Hrest). rewrite Heq in Hrest.
    cbn [snd] in Hrest. apply (f_equal length) in Hrest.
    rewrite length_app in Hrest. cbn in Hrest. lia.
  - split; [split; reflexivity|]. intros Hn. now destruct Hn.
Qed.

Lemma apiHistory_lookup (render : AppState) (i : nat) :
  apiHistory render !! i
  = (fun msg => {| history_role := role_string (Types.role msg);
                   history_parts := [Types.text msg] |})
      <$> chatHistory render !! i.
Proof. unfold apiHistory. apply list_lookup_fmap. Qed.

(** X13: what [handleSendMessage] sends. The history given to
    [chats.create] is the chat history of the render, message by message in
    the same order, each with its role as "user" or "model" and its text as
    the only part: the message being sent is not in it. That message goes
    to [sendMessage], as typed. Apart from the client, the chat and the
    message, the only call is the [console.error] of a failure. *)
Theorem handleSendMessage_request (render : AppState) (a : AppWorld H) :
  length (apiHistory render) = length (chatHistory render)
  /\ (forall i msg,
        chatHistory render !! i = Some msg ->
        apiHistory render !! i
        = Some {| history_role :=
                    match Types.role msg with
                    | Types.user => JS.lit "user"
                    | Types.model => JS.lit "model"
                    end;
                  history_parts := [Types.text msg] |})
  /\ exists new,
       calls (services (handleSendMessage render a).2)
       = calls (services a) ++ new
       /\ Forall (fun ev =>
                    chat_call (apiHistory render) (inputMessage render) ev
                    \/ exists e, ev = Ev (ConsoleError [LExn e]) returned)
            new.
Proof.
  split; [unfold apiHistory; apply length_fmap|]. split.
  { intros i msg Hmsg. rewrite apiHistory_lookup, Hmsg. cbn.
    now destruct (Types.role msg). }
  rewrite handleSendMessage_run.
  destruct (JS.truthy_string (JS.trim (inputMessage render))).
  2: { exists []. cbn. rewrite app_nil_r. split; [reflexivity|constructor]. }
  destruct (emits_sendChatMessage (apiHistory render) (inputMessage render)
              (services a)) as (new & Hc & Hq).
  assert (Hq' : Forall (fun ev =>
                   chat_call (apiHistory render) (inputMessage render) ev
                   \/ exists e, ev = Ev (ConsoleError [LExn e]) returned)
                  new).
  { eapply Forall_impl; [exact Hq|]. intros ev Hev. now left. }
  destruct (sendChatMessage _ _ (services a)) as [[t|e|] w'];
    cbn [fst snd services] in *.
  - exists new. auto.
  - exists (new ++ [Ev (ConsoleError [LExn e]) returned]).
    unfold console_error, host_call. cbn [fst snd record_call calls].
    rewrite Hc, <- app_assoc. split; [reflexivity|].
    apply Forall_app. split; [exact Hq'|].
    constructor; [right; eauto | constructor].
  - exists new. auto.
Qed.

End PageProofs.

(** * The button *)

Import Components.

Lemma get_app (key : JS.jsstring) (o1 o2 : object) :
  get key (o1 ++ o2)
  = match get key o2 with
    | Some v => Some v
    | None => get key o1
    end.
Proof.
  induction o1 as [|[k v] o1 IH]; simpl.
  - now destruct (get key o2).
  - rewrite IH. now destruct (get key o2).
Qed.

Lemma Button_disabled_attr {Node : Type} (b : ButtonProps Node) :
  get (JS.lit "disabled") (attributes (Button b))
  = match get (JS.lit "disabled") (props b) with
    | Some v => Some v
    | None =>
        Some (if default false (isLoading b) then ABool true else AUndefined)
    end.
Proof.
  unfold Button. cbn [attributes]. rewrite get_app.
  unfold loading_or_disabled.
  destruct (get (JS.lit "disabled") (props b)) as [v|] eqn:E;
    [reflexivity|].
  now destruct (default false (isLoading b)).
Qed.

(** X14: the props passed to [Button] beyond the five it names reach the
    [button] element unchanged and win over what the component computes.
    So when a [disabled] prop is passed, the element has exactly that
    value, also while [isLoading] is true: [isLoading] disables the button
    only when no [disabled] prop is passed at all. The content is the
    spinner exactly when [isLoading] is true, and the class is the base
    style, the variant (default primary), the size (default md) and the
    caller's class, in that order. *)
Theorem Button_props {Node : Type} (b : ButtonProps Node) :
  (forall key v, get key (props b) = Some v ->
                 get key (attributes (Button b)) = Some v)
  /\ get (JS.lit "disabled") (attributes (Button b))
     = match get (JS.lit "disabled") (props b) with
       | Some v => Some v
       | None =>
           Some (if default false (isLoading b) then ABool true
                 else AUndefined)
       end
  /\ (is_disabled (Button b) = true
      <-> get (JS.lit "disabled") (props b) = Some (ABool true)
          \/ (get (JS.lit "disabled") (props b) = None
              /\ isLoading b = Some true))
  /\ (body (Button b) = Spinner <-> isLoading b = Some true)
  /\ (get (JS.lit "className") (props b) = None ->
      get (JS.lit "className") (attributes (Button b))
      = Some (AString
                (baseStyle ++ JS.lit " "
                 ++ variants (default primary (variant b)) ++ JS.lit " "
                 ++ sizes (default md (size b)) ++ JS.lit " "
                 ++ default [] (className b)))).
Proof.
  pose proof (Button_disabled_attr b) as Hdis.
  split; [|split; [exact Hdis|split; [|split]]].
  - intros key v Hkey. unfold Button. cbn [attributes].
    now rewrite get_app, Hkey.
  - unfold is_disabled. rewrite Hdis.
    destruct (get (JS.lit "disabled") (props b)) as [[|[]| |]|];
      destruct (isLoading b) as [[]|]; cbn;
      split; try discriminate; try tauto;
      intros [Hc|[Hc1 Hc2]]; discriminate.
  - unfold Button. cbn [body].
    destruct (isLoading b) as [[]|]; cbn; split; congruence.
  - intros Hnone. unfold Button. cbn [attributes].
    now rewrite get_app, Hnone.
Qed.

Section SendButton.
Context {H : Type} `{!Host H}.

(** X15: the send button of the chat is enabled exactly when the input is
    not blank and nothing is loading, and whenever it is enabled a click
    does send: [handleSendMessage] appends the user's message. *)
Theorem send_button_enabled (s : AppState) (a : AppWorld H) :
  (is_disabled (Button (send_button s)) = false
   <-> JS.truthy_string (JS.trim (inputMessage s)) = true
       /\ loading s = false)
  /\ (is_disabled (Button (send_button s)) = false ->
      exists rest,
        updates (handleSendMessage s a).2
        = updates a
          ++ SetChatHistory (append_message (user_message s)) :: rest)
  /\ get (JS.lit "onClick") (attributes (Button (send_button s)))
     = Some (AHandler 0)
  /\ body (Button (send_button s)) = Children [55357; 56960]%N.
Proof.
  assert (Hiff : is_disabled (Button (send_button s)) = false
                 <-> JS.truthy_string (JS.trim (inputMessage s)) = true
                     /\ loading s = false).
  { unfold is_disabled.
    rewrite (Button_disabled_attr (send_button s)).
    cbn. destruct (JS.truthy_string (JS.trim (inputMessage s)));
      destruct (loading s); cbn; split; try tauto; try discriminate;
      intros [? ?]; discriminate. }
  split; [exact Hiff|]. split; [|split; reflexivity].
  intros Hen. apply Hiff in Hen as [Hin _].
  rewrite handleSendMessage_run, Hin.
  destruct (sendChatMessage _ _ (services a)) as [[t|e|] w'];
    cbn [fst snd updates]; eexists; reflexivity.
Qed.

End SendButton.

Lemma page_invariants_witness :
  log (updates
         (app (handleTopicSelect (JS.lit "Animals")
                 {| alerts := [];
                    app := {| updates := [];
                              services := init Sample.clicked |} |}).2))
  /\ view (apply_updates
             (updates
                (app (handleTopicSelect (JS.lit "Animals")
                        {| alerts := [];
                           app := {| updates := [];
                                     services := init Sample.clicked |} |}).2))
             initialState)
     = Types.LESSON.
Proof.
  destruct (page_invariants (H := Sample.browser) [] log_nil)
    as (_ & _ & _ & Htopic & _).
  split; [now apply Htopic | reflexivity].
Defined.
